(** * inky73-slideshow: rotation controller, state store, labels, preprocessor

    A shallow embedding of [slideshow.py] and [preprocess_inky73.py].
    Python values that the program reads back from disk are kept dynamically
    typed ([json]); the controller's own variables are typed the way the
    program builds them ([len(...)] is a [nat], the queue a list of paths).
    Calls into libraries and devices (directory listing, the random source,
    Pillow, piexif, the Inky panel, the file system) are inputs of the model:
    each call site takes its outcome from an explicit environment record. *)

From Stdlib Require Import ZArith Ascii String List Bool Lia Permutation DecimalString.
From stdpp Require Import base option list strings gmap.

Open Scope string_scope.
Open Scope Z_scope.
Open Scope nat_scope.
Open Scope list_scope.

(** ** Strings as Python's [str] methods use them *)

Module Str.

(** [str.lower()] on the ASCII range; other bytes are left alone. *)
Definition lower_ascii (c : ascii) : ascii :=
  let n := nat_of_ascii c in
  if (65 <=? n) && (n <=? 90) then ascii_of_nat (n + 32) else c.

Fixpoint lower (s : string) : string :=
  match s with
  | EmptyString => EmptyString
  | String c r => String (lower_ascii c) (lower r)
  end.

(** [s.endswith(suf)] *)
Definition endswith (s suf : string) : bool :=
  (String.length suf <=? String.length s) &&
  String.eqb (substring (String.length s - String.length suf)
                        (String.length suf) s) suf.

(** [s.endswith((a, b, ...))] with a tuple of suffixes. *)
Definition endswith_any (s : string) (sufs : list string) : bool :=
  existsb (endswith s) sufs.

(** [s[i:]] *)
Fixpoint drop (i : nat) (s : string) : string :=
  match i, s with
  | O, _ => s
  | S i', String _ r => drop i' r
  | S _, EmptyString => EmptyString
  end.

(** [s[:i]] *)
Fixpoint take (i : nat) (s : string) : string :=
  match i, s with
  | O, _ => EmptyString
  | S i', String c r => String c (take i' r)
  | S _, EmptyString => EmptyString
  end.

(** [s.rfind(c)], [None] for Python's -1. *)
Fixpoint rfind (c : ascii) (s : string) : option nat :=
  match s with
  | EmptyString => None
  | String a r =>
      match rfind c r with
      | Some i => Some (S i)
      | None => if Ascii.eqb a c then Some 0 else None
      end
  end.

End Str.

(** ** Values read back by [json.load] *)

#[warnings="-register-all"]
Inductive json : Type :=
| JNull
| JBool (b : bool)
| JInt (n : Z)
| JStr (s : string)
| JArr (items : list json)
| JObj (fields : list (string * json)).
(* Numbers with a fraction or an exponent are left out: the program only
   ever writes an integer count and strings. *)

Module Py.

(** [d.get(key, default)] on a parsed object: the first binding of [key]. *)
Fixpoint get (key : string) (fields : list (string * json)) (default : json) : json :=
  match fields with
  | [] => default
  | (k, v) :: rest => if String.eqb k key then v else get key rest default
  end.

(** [len(x)]: [None] where Python raises [TypeError]. *)
Definition len (x : json) : option nat :=
  match x with
  | JStr s => Some (String.length s)
  | JArr l => Some (List.length l)
  | JObj kv => Some (List.length kv)
  | JNull | JBool _ | JInt _ => None
  end.

(** [n != x] for an [int] n: [bool] is a subclass of [int] in Python. *)
Definition int_ne (n : Z) (x : json) : bool :=
  match x with
  | JInt m => negb (Z.eqb n m)
  | JBool b => negb (Z.eqb n (if b then 1%Z else 0%Z))
  | _ => true
  end.

(** A Python list of [str] as the controller uses it. *)
Fixpoint as_paths (items : list json) : option (list string) :=
  match items with
  | [] => Some []
  | JStr s :: rest =>
      match as_paths rest with
      | Some ps => Some (s :: ps)
      | None => None
      end
  | _ :: _ => None
  end.

Definition of_paths (q : list string) : json := JArr (map JStr q).

End Py.

(** ** Observable effects *)

Inductive level := INFO | WARNING | ERROR | CRITICAL.

(** What a log line reports; the exact wording is not modelled. *)
Inductive message :=
| StateSaved (remaining total : nat)
| StateSaveFailed
| StateLoaded
| LegacyStateFound
| StateLoadFailed
| ExifError (path : string)
| RenderStart (path : string)
| RenderError (path : string)
| DriftDetected
| QueueEmpty
| NoImagesFound
| DisplayStart (path : string)
| DisplayOk (path : string)
| DisplayError
| Waiting
| Unexpected
| PanelInitFailed
| PhotoDirMissing (path : string).

(** A display-ready image: which file it was rendered from and the two label
    lines drawn on it. Pixels are not modelled. *)
Record image := { img_source : string; img_labels : string * string }.

Inductive event :=
| Log (lvl : level) (msg : message)
| Sleep (secs : Z)                          (* [time.sleep] *)
| ReadExif (path : string)                  (* [piexif.load] *)
| SetImage (img : image)                    (* [inky_display.set_image] *)
| ShowPanel                                 (* [inky_display.show] *)
| DumpState (queue : list string) (total_count : nat)   (* [save_state] called *)
| RemoveState.                              (* [os.remove(STATE_FILE)] *)

(** ** State Store ([save_state], [load_state]) *)

(** Contents of [STATE_FILE]. *)
Inductive state_file :=
| Absent                 (* [os.path.exists] is false *)
| Unparsable             (* exists, but [open] or [json.load] raises *)
| Doc (value : json).    (* exists and parses to [value] *)

(** How the write inside [save_state] ends. *)
Inductive write_outcome :=
| Written                (* [makedirs], [open] and [json.dump] all return *)
| NotOpened              (* [makedirs] or [open] raises: file untouched *)
| Truncated.             (* [open(.., 'w')] returned, [json.dump] raised *)

Module StateStore.

(** [state = {"total_count": total_count, "queue": queue}] *)
Definition record (queue : list string) (total_count : nat) : json :=
  JObj [("total_count", JInt (Z.of_nat total_count));
        ("queue", Py.of_paths queue)].

Definition save_state (w : write_outcome) (queue : list string)
    (total_count : nat) (f : state_file) : state_file * list event :=
  match w with
  | Written =>
      (Doc (record queue total_count),
       [DumpState queue total_count;
        Log INFO (StateSaved (List.length queue) total_count)])
  | NotOpened =>
      (f, [DumpState queue total_count; Log ERROR StateSaveFailed])
  | Truncated =>
      (Unparsable, [DumpState queue total_count; Log ERROR StateSaveFailed])
  end.

Definition default : json * json := (JInt 0, JArr []).

Definition load_state (f : state_file) : (json * json) * list event :=
  match f with
  | Absent => (default, [])
  | Unparsable => (default, [Log ERROR StateLoadFailed])
  | Doc (JObj fields) =>
      let count := Py.get "total_count" fields (JInt 0) in
      let queue := Py.get "queue" fields (JArr []) in
      match Py.len queue with
      | Some _ => ((count, queue), [Log INFO StateLoaded])
      | None => (default, [Log ERROR StateLoadFailed])
      end
  | Doc (JArr items) => ((JInt 0, JArr items), [Log INFO LegacyStateFound])
  | Doc _ => (default, [])
  end.

(** The legacy record shape as the specification words it: a bare array of
    path strings, with no wrapping record and so no place for the count. *)
Definition legacy_record (queue : list string) : json := Py.of_paths queue.

End StateStore.

(** ** [random.shuffle] *)

Module Shuffle.

Section Generic.
Context {A : Type}.

(** [x[i], x[j] = x[j], x[i]] *)
Definition swap (x : list A) (i j : nat) : list A :=
  match x !! i, x !! j with
  | Some a, Some b => <[j := a]> (<[i := b]> x)
  | _, _ => x
  end.

(** [randbelow(n)]: the next draw of the random source, reduced below [n];
    an exhausted source keeps answering 0. *)
Definition randbelow (n : nat) (draws : list nat) : nat * list nat :=
  match draws with
  | [] => (0, [])
  | r :: rest => (r mod n, rest)
  end.

(** [for i in reversed(range(1, len(x))): j = randbelow(i + 1); swap]:
    [loop i] runs the indices [i], [i-1], ..., 1. *)
Fixpoint loop (i : nat) (draws : list nat) (x : list A) : list A :=
  match i with
  | O => x
  | S i' =>
      let '(j, rest) := randbelow (S i) draws in
      loop i' rest (swap x i j)
  end.

Definition shuffle (draws : list nat) (x : list A) : list A :=
  loop (List.length x - 1) draws x.

End Generic.

End Shuffle.

(** ** Naive [datetime] values and their difference in days *)

Record datetime := {
  year : Z; month : Z; day : Z;
  hour : Z; minute : Z; second : Z; microsecond : Z
}.

Module Datetime.

Definition is_leap (y : Z) : bool :=
  ((y mod 4 =? 0) && (negb (y mod 100 =? 0) || (y mod 400 =? 0)))%Z.

Definition days_before_year (y : Z) : Z :=
  (let y1 := y - 1 in y1 * 365 + y1 / 4 - y1 / 100 + y1 / 400)%Z.

Definition DAYS_BEFORE_MONTH : list Z :=
  [0; 0; 31; 59; 90; 120; 151; 181; 212; 243; 273; 304; 334]%Z.

Definition days_before_month (y m : Z) : Z :=
  (nth (Z.to_nat m) DAYS_BEFORE_MONTH 0 +
   (if (2 <? m) && is_leap y then 1 else 0))%Z.

(** [date.toordinal()]: 0001-01-01 is day 1. *)
Definition toordinal (d : datetime) : Z :=
  (days_before_year (year d) + days_before_month (year d) (month d) + day d)%Z.

Definition seconds_of_day (d : datetime) : Z :=
  (second d + minute d * 60 + hour d * 3600)%Z.

(** [(a - b).days]: [timedelta] normalises so that seconds and microseconds
    are non-negative, which makes [days] the floor of the difference. *)
Definition delta_days (a b : datetime) : Z :=
  (let us := ((toordinal a - toordinal b) * 86400 +
              (seconds_of_day a - seconds_of_day b)) * 1000000 +
             (microsecond a - microsecond b) in
   us / (86400 * 1000000))%Z.

Definition dec (n : Z) : string := NilZero.string_of_int (Z.to_int n).

(** [%02d]-style zero padding to [width] digits (non-negative numbers). *)
Fixpoint zeros (k : nat) : string :=
  match k with O => "" | S k' => "0" +:+ zeros k' end.

Definition pad (width : nat) (n : Z) : string :=
  let s := dec n in zeros (width - String.length s) +:+ s.

(** The fields of a time of day are in range. *)
Definition valid_time (d : datetime) : Prop :=
  (0 <= hour d < 24 /\ 0 <= minute d < 60 /\ 0 <= second d < 60 /\
   0 <= microsecond d < 1000000)%Z.

(** [strftime("%Y-%m-%d")], for the four-digit years [strptime] yields. *)
Definition strftime_ymd (d : datetime) : string :=
  pad 4 (year d) +:+ "-" +:+ pad 2 (month d) +:+ "-" +:+ pad 2 (day d).

End Datetime.

(** ** Labels ([format_date_and_elapsed_time]) *)

Module Labels.

Definition format_date_and_elapsed_time (now : datetime)
    (capture_date : option datetime) : string * string :=
  match capture_date with
  | None => ("Unknown date", "Unknown date")
  | Some capture =>
      let formatted_date := Datetime.strftime_ymd capture in
      let days := Datetime.delta_days now capture in
      let years := (days / 365)%Z in
      let elapsed :=
        if (0 <? years)%Z then
          Datetime.dec years +:+ " year" +:+
            (if (1 <? years)%Z then "s" else "") +:+ " ago"
        else
          let months := (days / 30)%Z in
          if (0 <? months)%Z then
            Datetime.dec months +:+ " month" +:+
              (if (1 <? months)%Z then "s" else "") +:+ " ago"
          else "Within a month" in
      (formatted_date, elapsed)
  end.

(** The phrase as the specification words it: ["N unit ago"], with a plural
    [s] from two on. *)
Definition ago (n : Z) (unit : string) : string :=
  Datetime.dec n +:+ " " +:+ unit +:+ (if (2 <=? n)%Z then "s" else "") +:+ " ago".

End Labels.

(** ** A result or an exception *)

Inductive exc (A : Type) : Type :=
| Returns (a : A)
| Raises.
Arguments Returns {A} a.
Arguments Raises {A}.

(** ** Capture-Date Extractor ([extract_capture_date]) *)

(** What the metadata read and parse yield for a file. *)
Inductive exif_read :=
| LoadRaises                   (* [piexif.load] or the ['Exif'] lookup raises *)
| NoDate                       (* [DateTimeOriginal] missing or empty *)
| BadDate                      (* [decode] or [strptime] raises *)
| Date (d : datetime).         (* [strptime] returns [d] *)

Module Extractor.

Definition rfindZ (c : ascii) (s : string) : Z :=
  match Str.rfind c s with
  | Some i => Z.of_nat i
  | None => (-1)%Z
  end.

(** The [while filenameIndex < dotIndex] loop of [genericpath._splitext]:
    is there a character other than the dot in [p[i : i + n]]? *)
Fixpoint has_non_dot (n i : nat) (p : string) : bool :=
  match n with
  | O => false
  | S n' =>
      match String.get i p with
      | Some "."%char => has_non_dot n' (S i) p
      | _ => true
      end
  end.

(** [os.path.splitext] (POSIX). *)
Definition splitext (p : string) : string * string :=
  let sepIndex := rfindZ "/" p in
  let dotIndex := rfindZ "." p in
  if (sepIndex <? dotIndex)%Z then
    let filenameIndex := (sepIndex + 1)%Z in
    if has_non_dot (Z.to_nat (dotIndex - filenameIndex)) (Z.to_nat filenameIndex) p
    then (Str.take (Z.to_nat dotIndex) p, Str.drop (Z.to_nat dotIndex) p)
    else (p, "")
  else (p, "").

(** The body of the [try] block. *)
Definition read_date (image_path : string) (r : exif_read)
    : exc (option datetime) * list event :=
  match r with
  | LoadRaises => (Raises, [ReadExif image_path])
  | NoDate => (Returns None, [ReadExif image_path])
  | BadDate => (Raises, [ReadExif image_path])
  | Date d => (Returns (Some d), [ReadExif image_path])
  end.

Definition extract_capture_date (image_path : string) (r : exif_read)
    : exc (option datetime) * list event :=
  if String.eqb (Str.lower (snd (splitext image_path))) ".png"
  then (Returns None, [])
  else
    match read_date image_path r with
    | (Returns v, t) => (Returns v, t)
    | (Raises, t) => (Returns None, t ++ [Log WARNING (ExifError image_path)])
    end.

End Extractor.

(** ** Render ([prepare_image]) *)

(** What the libraries do while one image is rendered. *)
Record render_env := {
  now : datetime;            (* [datetime.now()] *)
  decodes : bool;            (* [Image.open] .. [crop] return *)
  exif : exif_read;
  overlays : bool            (* [add_date_overlay] and [convert] return *)
}.

Module Render.

Definition prepare_image (e : render_env) (image_path : string)
    : option image * list event :=
  let start := [Log INFO (RenderStart image_path)] in
  let failed t := (None, t ++ [Log ERROR (RenderError image_path)]) in
  if decodes e then
    match Extractor.extract_capture_date image_path (exif e) with
    | (Returns capture_date, t) =>
        if overlays e then
          (Some {| img_source := image_path;
                   img_labels :=
                     Labels.format_date_and_elapsed_time (now e) capture_date |},
           start ++ t)
        else failed (start ++ t)
    | (Raises, t) => failed (start ++ t)
    end
  else failed start.

End Render.

(** ** Rotation Controller ([main]) *)

Record config := {
  PHOTO_DIR : string;
  INTERVAL_SECONDS : Z
}.

(** The variables of [main] that survive an iteration, and the state file. *)
Record state := {
  display_queue : list string;
  total_in_cycle : nat;
  STATE_FILE : state_file
}.

Inductive sink_outcome :=
| Displayed                    (* [set_image] and [show] return *)
| SetImageRaises
| ShowRaises.

(** What the outside world does during one pass of the [while] body. *)
Record env := {
  listdir : exc (list string);   (* [os.listdir(photo_dir)] *)
  draws : list nat;              (* the random source read by [shuffle] *)
  render : render_env;
  sink : sink_outcome;
  write : write_outcome;
  removes : bool                 (* [os.remove(STATE_FILE)] returns *)
}.

(** How a block of the loop body ends. *)
Inductive flow (A : Type) : Type :=
| Next (a : A)                 (* falls through to the next statement *)
| Continue                     (* [continue] *)
| Raised.                      (* an [Exception] is propagating *)
Arguments Next {A} a.
Arguments Continue {A}.
Arguments Raised {A}.

Definition M (A : Type) : Type := state -> flow A * state * list event.

#[global] Instance M_ret : MRet M := fun A a s => (Next a, s, []).

#[global] Instance M_bind : MBind M := fun A B f m s =>
  match m s with
  | (Next a, s1, t1) => let '(r, s2, t2) := f a s1 in (r, s2, t1 ++ t2)
  | (Continue, s1, t1) => (Continue, s1, t1)
  | (Raised, s1, t1) => (Raised, s1, t1)
  end.

Module Controller.

Definition emit (ev : event) : M unit := fun s => (Next tt, s, [ev]).
Definition raise {A} : M A := fun s => (Raised, s, []).
Definition continue {A} : M A := fun s => (Continue, s, []).
Definition get_queue : M (list string) := fun s => (Next (display_queue s), s, []).
Definition get_file : M state_file := fun s => (Next (STATE_FILE s), s, []).
Definition set_queue (q : list string) : M unit := fun s =>
  (Next tt, {| display_queue := q; total_in_cycle := total_in_cycle s;
               STATE_FILE := STATE_FILE s |}, []).
Definition set_total (n : nat) : M unit := fun s =>
  (Next tt, {| display_queue := display_queue s; total_in_cycle := n;
               STATE_FILE := STATE_FILE s |}, []).
Definition set_file (f : state_file) : M unit := fun s =>
  (Next tt, {| display_queue := display_queue s;
               total_in_cycle := total_in_cycle s; STATE_FILE := f |}, []).

(** [try: body except Exception: handler]; what [body] changed before it
    raised stays changed. *)
Definition try_except {A} (body handler : M A) : M A := fun s =>
  match body s with
  | (Raised, s1, t1) => let '(r, s2, t2) := handler s1 in (r, s2, t1 ++ t2)
  | other => other
  end.

(** [time.sleep(secs)] raises [ValueError] on a negative argument. *)
Definition sleep (secs : Z) : M unit :=
  if (secs <? 0)%Z then raise else emit (Sleep secs).

(** [os.path.join(a, b)] (POSIX, two arguments). *)
Definition path_join (a b : string) : string :=
  if String.prefix "/" b then b
  else if String.eqb a "" || Str.endswith a "/" then a +:+ b
  else a +:+ "/" +:+ b.

Definition is_image (f : string) : bool :=
  Str.endswith_any (Str.lower f) [".jpg"; ".jpeg"; ".png"].

(** [[os.path.join(photo_dir, f) for f in names if f.lower().endswith(..)]] *)
Definition image_paths (photo_dir : string) (names : list string) : list string :=
  map (path_join photo_dir) (filter (fun f => is_image f = true) names).

Section Loop.
Variable cfg : config.

Definition list_images (e : env) : M (list string) :=
  match listdir e with
  | Returns names => mret (image_paths (PHOTO_DIR cfg) names)
  | Raises => raise
  end.

(** [if os.path.exists(STATE_FILE): os.remove(STATE_FILE)] *)
Definition remove_state (e : env) : M unit :=
  f ← get_file;
  match f with
  | Absent => mret tt
  | _ => if removes e then emit RemoveState ;; set_file Absent
         else emit RemoveState ;; raise
  end.

(** Step 1, lines 192-203. *)
Definition refill (e : env) : M unit :=
  q ← get_queue;
  match q with
  | _ :: _ => mret tt
  | [] =>
      emit (Log INFO QueueEmpty) ;;
      all_files ← list_images e;
      match all_files with
      | [] =>
          emit (Log ERROR NoImagesFound) ;;
          remove_state e ;;
          sleep 60 ;;
          continue
      | _ :: _ =>
          let shuffled := Shuffle.shuffle (draws e) all_files in
          set_queue shuffled ;;
          set_total (List.length shuffled)
      end
  end.

(** [display_queue.pop(0)] *)
Definition pop0 : M string :=
  q ← get_queue;
  match q with
  | [] => raise
  | p :: rest => set_queue rest ;; mret p
  end.

(** [display_queue.insert(0, image_path)] *)
Definition insert0 (image_path : string) : M unit :=
  q ← get_queue; set_queue (image_path :: q).

Definition prepare (e : env) (image_path : string) : M (option image) :=
  fun s =>
    let '(r, t) := Render.prepare_image (render e) image_path in (Next r, s, t).

Definition save (e : env) : M unit :=
  fun s =>
    let '(f, t) := StateStore.save_state (write e) (display_queue s)
                     (total_in_cycle s) (STATE_FILE s) in
    (Next tt, {| display_queue := display_queue s;
                 total_in_cycle := total_in_cycle s; STATE_FILE := f |}, t).

(** [set_image(..); show()] *)
Definition hand_to_sink (e : env) (img : image) : M unit :=
  match sink e with
  | Displayed => emit (SetImage img) ;; emit ShowPanel
  | SetImageRaises => emit (SetImage img) ;; raise
  | ShowRaises => emit (SetImage img) ;; emit ShowPanel ;; raise
  end.

(** Step 4, lines 210-218. *)
Definition display (e : env) (image_path : string)
    (processed_image : option image) : M unit :=
  match processed_image with
  | Some img =>
      try_except
        (hand_to_sink e img ;;
         emit (Log INFO (DisplayOk image_path)) ;;
         save e)
        (emit (Log ERROR DisplayError) ;;
         insert0 image_path)
  | None => mret tt
  end.

(** Step 5, lines 220-221. *)
Definition wait : M unit :=
  emit (Log INFO Waiting) ;; sleep (INTERVAL_SECONDS cfg).

(** The [try] block of the [while] loop, lines 192-221. *)
Definition body (e : env) : M unit :=
  refill e ;;
  image_path ← pop0;
  emit (Log INFO (DisplayStart image_path)) ;;
  processed_image ← prepare e image_path;
  display e image_path processed_image ;;
  wait.

(** Steps 1-2 of [body], and steps 3-5 for the selected path. *)
Definition select (e : env) : M string :=
  refill e ;; pop0.

Definition serve (e : env) (image_path : string) : M unit :=
  emit (Log INFO (DisplayStart image_path)) ;;
  processed_image ← prepare e image_path;
  display e image_path processed_image ;;
  wait.

(** How [wait] ends: [time.sleep] refuses a negative interval. *)
Definition wait_flow : flow unit :=
  if (INTERVAL_SECONDS cfg <? 0)%Z then Raised else Next tt.

Definition wait_trace : list event :=
  if (INTERVAL_SECONDS cfg <? 0)%Z then [Log INFO Waiting]
  else [Log INFO Waiting; Sleep (INTERVAL_SECONDS cfg)].

(** The sink calls made for each outcome. *)
Definition sink_trace (o : sink_outcome) (img : image) : list event :=
  match o with
  | Displayed | ShowRaises => [SetImage img; ShowPanel]
  | SetImageRaises => [SetImage img]
  end.

(** What the [except Exception] handler of the loop adds to a pass. *)
Definition backoff {A : Type} (r : flow A) : list event :=
  match r with
  | Raised => [Log CRITICAL Unexpected; Sleep 10]
  | _ => []
  end.

(** One pass of [while True], with the [except Exception] handler of
    lines 226-228. [KeyboardInterrupt] ends the loop and is not a pass. *)
Definition iteration (e : env) (s : state) : state * list event :=
  match body e s with
  | (Raised, s1, t1) => (s1, t1 ++ [Log CRITICAL Unexpected; Sleep 10])
  | (_, s1, t1) => (s1, t1)
  end.

End Loop.

End Controller.

(** ** Startup (lines 164-188 of [main]) *)

Record boot_env := {
  panel_found : bool;                  (* [auto(verbose=True)] returns *)
  photo_dir_found : bool;              (* [os.path.isdir(photo_dir)] *)
  first_listdir : exc (list string)    (* [os.listdir(photo_dir)], line 180 *)
}.

Inductive boot :=
| Exits                        (* [main] returns before the loop *)
| Crashes                      (* an exception leaves [main] *)
| Untyped (count queue : json) (* the loop starts on a saved queue that is not
                                  a list of strings *)
| Runs (s : state).            (* the loop starts in [s] *)

Module Startup.

(** Lines 182-188 for a given [current_file_count] and loaded pair: the
    queue the loop starts with, [None] when it is not a list of strings. *)
Definition reconcile (current_file_count : nat) (saved : json * json)
    : option (list string) * list event :=
  let '(saved_count, display_queue) := saved in
  if Py.int_ne (Z.of_nat current_file_count) saved_count
  then (Some [], [Log INFO DriftDetected])
  else match display_queue with
       | JArr items => (Py.as_paths items, [])
       | _ => (None, [])
       end.

Definition startup (cfg : config) (b : boot_env) (f : state_file)
    : boot * list event :=
  if negb (panel_found b) then (Exits, [Log ERROR PanelInitFailed])
  else if negb (photo_dir_found b)
  then (Exits, [Log ERROR (PhotoDirMissing (PHOTO_DIR cfg))])
  else
    match first_listdir b with
    | Raises => (Crashes, [])
    | Returns names =>
        let current_files := Controller.image_paths (PHOTO_DIR cfg) names in
        let current_file_count := List.length current_files in
        let '(saved, t1) := StateStore.load_state f in
        let '(q, t2) := reconcile current_file_count saved in
        match q with
        | Some display_queue =>
            (Runs {| display_queue := display_queue;
                     total_in_cycle := current_file_count;
                     STATE_FILE := f |}, t1 ++ t2)
        | None => (Untyped (fst saved) (snd saved), t1 ++ t2)
        end
    end.

End Startup.

(** The Cycle State invariant of the specification. *)
Definition cycle_inv (s : state) : Prop :=
  List.length (display_queue s) <= total_in_cycle s.

Definition state_after {A : Type} (m : M A) (s : state) : state := snd (fst (m s)).

(** States between passes of the loop when it starts in [s0]. *)
Inductive reachable_from (cfg : config) (s0 : state) : state -> Prop :=
| reach_start : reachable_from cfg s0 s0
| reach_pass e s :
    reachable_from cfg s0 s ->
    reachable_from cfg s0 (fst (Controller.iteration cfg e s)).

(** The points of one pass at which the queue or the count may have changed:
    after Refill, after Select, and at the end of the [try] block (Render and
    Wait change neither, so this is also the state after Display). *)
Definition stages (cfg : config) (e : env) : list (M unit) :=
  [ Controller.refill cfg e;
    (_ ← Controller.select cfg e; mret tt);
    Controller.body cfg e ].

(** States seen between passes or between the steps of a pass. *)
Definition visited (cfg : config) (s0 s' : state) : Prop :=
  reachable_from cfg s0 s' \/
  exists s e m, reachable_from cfg s0 s /\ In m (stages cfg e) /\ s' = state_after m s.

(** The integer a loaded count compares equal to, if any. *)
Definition as_int (x : json) : option Z :=
  match x with
  | JInt n => Some n
  | JBool b => Some (if b then 1 else 0)%Z
  | _ => None
  end.

(** The loaded pair satisfies the invariant whenever it is a count and a
    list. *)
Definition saved_inv (saved : json * json) : Prop :=
  forall c items,
    as_int (fst saved) = Some c -> snd saved = JArr items ->
    (Z.of_nat (List.length items) <= c)%Z.

(** The startup comparison of line 184 finds the counts different. *)
Definition drift (cfg : config) (b : boot_env) (f : state_file) : Prop :=
  exists names,
    first_listdir b = Returns names /\
    Py.int_ne (Z.of_nat (List.length (Controller.image_paths (PHOTO_DIR cfg) names)))
              (fst (fst (StateStore.load_state f))) = true.

(** [ev] is a call into the Display Sink. *)
Definition sink_call (ev : event) : bool :=
  match ev with
  | SetImage _ | ShowPanel => true
  | _ => false
  end.

(** [ev] is a log line or a metadata read. *)
Definition quiet (ev : event) : bool :=
  match ev with
  | Log _ _ | ReadExif _ => true
  | _ => false
  end.

(** [ev] is a write to or removal of the state file. *)
Definition store_call (ev : event) : bool :=
  match ev with
  | DumpState _ _ | RemoveState => true
  | _ => false
  end.

(** ** Batch preprocessor ([preprocess_inky73.py]) *)

(** A [pathlib] path as its parts; the last part is the name. *)
Definition path := list string.

Inductive outcome :=
| Skipped                      (* prints [skip] *)
| Converted                    (* prints [ok] *)
| Errored.                     (* prints [error] *)

(** What Pillow and the file system do for each file. *)
Record img_env := {
  decoded : path -> exc bool;  (* [Image.open] .. [resize_and_crop_to_panel];
                                  the result says whether [exif_bytes] is truthy *)
  mkdirs : path -> bool;       (* [dst_path.parent.mkdir(..)] returns *)
  saves : path -> bool         (* [out_img.save(target, ..)] returns *)
}.

Module Preprocess.

Definition VALID_EXTS : list string :=
  [".jpg"; ".jpeg"; ".png"; ".JPG"; ".JPEG"; ".PNG"].

Definition name (p : path) : string := List.last p "".
Definition parent (p : path) : path := removelast p.

(** [PurePath.suffix]: [name[i:]] when [0 < i < len(name) - 1]. *)
Definition suffix (p : path) : string :=
  let n := name p in
  match Str.rfind "." n with
  | Some i =>
      if (0 <? i) && (i <? String.length n - 1) then Str.drop i n else ""
  | None => ""
  end.

(** [PurePath.with_suffix]; [None] where it raises [ValueError]. *)
Definition with_suffix (p : path) (suf : string) : option path :=
  if (match Str.rfind "/" suf with Some _ => true | None => false end) then None
  else if (negb (String.eqb suf "") && negb (String.prefix "." suf))
          || String.eqb suf "." then None
  else
    let n := name p in
    if String.eqb n "" then None
    else
      let old_suffix := suffix p in
      let n' :=
        if String.eqb old_suffix "" then n +:+ suf
        else Str.take (String.length n - String.length old_suffix) n +:+ suf in
      Some (parent p ++ [n']).

(** The directories [mkdir(parents=True)] makes sure exist: [d] and every
    ancestor of it. *)
Fixpoint ancestors (d : path) : list path :=
  match d with
  | [] => []
  | x :: rest => [x] :: map (cons x) (ancestors rest)
  end.

(** The extension the output is written under. *)
Definition target (src_path dst_path : path) : option path :=
  let ext := Str.lower (suffix src_path) in
  if bool_decide (ext ∈ [".png"]) then with_suffix dst_path ".png"
  else with_suffix dst_path ".jpg".

(** The extension [target] puts on the output name. *)
Definition normalized_ext (src_path : path) : string :=
  if bool_decide (Str.lower (suffix src_path) ∈ [".png"]) then ".png" else ".jpg".


(** [fs] is the set of paths that exist. *)
Definition process_one_image (e : img_env) (src_path dst_path : path)
    (overwrite : bool) (fs : gset path) : gset path * outcome :=
  if negb overwrite && bool_decide (dst_path ∈ fs) then (fs, Skipped)
  else
    match decoded e src_path with
    | Raises => (fs, Errored)
    | Returns _ =>
        if mkdirs e (parent dst_path) then
          let fs1 := fs ∪ list_to_set (ancestors (parent dst_path)) in
          match target src_path dst_path with
          | None => (fs1, Errored)
          | Some t =>
              if saves e t then (fs1 ∪ {[ t ]}, Converted)
              else (fs1, Errored)
          end
        else (fs, Errored)
    end.

(** Order of [sorted] on paths: part by part, each part as a string. *)
Fixpoint path_leb (a b : path) : bool :=
  match a, b with
  | [], _ => true
  | _ :: _, [] => false
  | x :: a', y :: b' =>
      match String.compare x y with
      | Lt => true
      | Gt => false
      | Eq => path_leb a' b'
      end
  end.

Fixpoint insert_sorted (p : path) (l : list path) : list path :=
  match l with
  | [] => [p]
  | q :: rest => if path_leb p q then p :: q :: rest else q :: insert_sorted p rest
  end.

Definition sorted (l : list path) : list path :=
  fold_right insert_sorted [] l.

(** The [for] loop of [walk_and_process] over relative paths. *)
Fixpoint process_all (e : img_env) (input_dir output_dir : path)
    (overwrite : bool) (rels : list path) (fs : gset path)
    : gset path * list (path * outcome) :=
  match rels with
  | [] => (fs, [])
  | rel :: rest =>
      let '(fs1, o) := process_one_image e (input_dir ++ rel) (output_dir ++ rel)
                         overwrite fs in
      let '(fs2, os) := process_all e input_dir output_dir overwrite rest fs1 in
      (fs2, (rel, o) :: os)
  end.

(** [walk_and_process]; [found] lists what [input_dir.rglob("*")] yields,
    relative to [input_dir]. The report pairs each processed relative path
    with what was printed for it. *)
Definition walk_and_process (e : img_env) (found : list path)
    (input_dir output_dir : path) (overwrite : bool) (fs : gset path)
    : gset path * list (path * outcome) :=
  let files := filter (fun p => suffix p ∈ VALID_EXTS) found in
  match files with
  | [] => (fs, [])
  | _ :: _ => process_all e input_dir output_dir overwrite (sorted files) fs
  end.

(** Successive runs of the tool over the same input, one environment per
    run. *)
Fixpoint reruns (es : list img_env) (found : list path)
    (input_dir output_dir : path) (overwrite : bool) (fs : gset path) : gset path :=
  match es with
  | [] => fs
  | e :: rest =>
      reruns rest found input_dir output_dir overwrite
        (fst (walk_and_process e found input_dir output_dir overwrite fs))
  end.

End Preprocess.

(** ** Sample inputs *)

Module Demo.

Definition cfg : config :=
  {| PHOTO_DIR := "/home/pi/images"; INTERVAL_SECONDS := 1800 |}.

Definition at_midnight (y m d : Z) : datetime :=
  {| year := y; month := m; day := d;
     hour := 0; minute := 0; second := 0; microsecond := 0 |}.

Definition rendering : render_env :=
  {| now := at_midnight 2024 2 20; decodes := true;
     exif := Date (at_midnight 2023 1 15); overlays := true |}.

Definition not_rendering : render_env :=
  {| now := at_midnight 2024 2 20; decodes := false;
     exif := NoDate; overlays := true |}.

Definition names : list string := ["a.jpg"; "notes.txt"; "b.jpg"; "c.png"].

(** Everything works. *)
Definition fine : env :=
  {| listdir := Returns names; draws := [7; 4]; render := rendering;
     sink := Displayed; write := Written; removes := true |}.

(** The panel refuses the image. *)
Definition panel_down : env :=
  {| listdir := Returns names; draws := [7; 4]; render := rendering;
     sink := ShowRaises; write := Written; removes := true |}.

(** The file cannot be decoded. *)
Definition broken_file : env :=
  {| listdir := Returns names; draws := [7; 4]; render := not_rendering;
     sink := Displayed; write := Written; removes := true |}.

(** The state file cannot be opened for writing. *)
Definition read_only : env :=
  {| listdir := Returns names; draws := [7; 4]; render := rendering;
     sink := Displayed; write := NotOpened; removes := true |}.

(** The write to the state file stops half way. *)
Definition disk_full : env :=
  {| listdir := Returns names; draws := [7; 4]; render := rendering;
     sink := Displayed; write := Truncated; removes := true |}.

Definition fresh : state :=
  {| display_queue := []; total_in_cycle := 0; STATE_FILE := Absent |}.

Definition midway : state :=
  {| display_queue := ["/home/pi/images/b.jpg"; "/home/pi/images/a.jpg"];
     total_in_cycle := 3;
     STATE_FILE :=
       Doc (StateStore.record
              ["/home/pi/images/b.jpg"; "/home/pi/images/a.jpg"] 3) |}.

Definition booting (listing : list string) : boot_env :=
  {| panel_found := true; photo_dir_found := true;
     first_listdir := Returns listing |}.

(** Pillow and the file system raise nothing. *)
Definition converting : img_env :=
  {| decoded := fun _ => Returns true; mkdirs := fun _ => true;
     saves := fun _ => true |}.

Definition found : list path := [["a.jpeg"]; ["trip"; "b.jpg"]].


End Demo.

(** ** Several passes of the loop, and what a trace shows *)

Module Loop.

(** The [while True] loop over a finite run of environments, one per pass. *)
Fixpoint run (cfg : config) (es : list env) (s : state) : state * list event :=
  match es with
  | [] => (s, [])
  | e :: rest =>
      let '(s1, t1) := Controller.iteration cfg e s in
      let '(s2, t2) := run cfg rest s1 in
      (s2, t1 ++ t2)
  end.

(** The files whose image was handed to [set_image], in order. *)
Definition shown (tr : list event) : list string :=
  omap (fun ev => match ev with
                  | SetImage img => Some (img_source img)
                  | _ => None
                  end) tr.

(** The arguments of the [time.sleep] calls, in order. *)
Definition sleeps (tr : list event) : list Z :=
  omap (fun ev => match ev with Sleep d => Some d | _ => None end) tr.

(** The arguments of the [save_state] calls, in order. *)
Definition dumps (tr : list event) : list (list string * nat) :=
  omap (fun ev => match ev with
                  | DumpState q n => Some (q, n)
                  | _ => None
                  end) tr.

(** Render and display go through in this pass. *)
Definition succeeds (e : env) : Prop :=
  decodes (render e) = true /\ overlays (render e) = true /\ sink e = Displayed.

(** The state file holds the record of the queue and count in memory. *)
Definition in_sync (s : state) : Prop :=
  STATE_FILE s = Doc (StateStore.record (display_queue s) (total_in_cycle s)).

(** A restart of the process finds the panel and the photo directory, and
    lists [names]. *)
Definition restart (names : list string) : boot_env :=
  {| panel_found := true; photo_dir_found := true;
     first_listdir := Returns names |}.

End Loop.

(** ** The date label ([add_date_overlay]) and the centre crop *)

Module Overlay.






(** The crop box of [prepare_image] (lines 154-155) and of
    [resize_and_crop_to_panel] (lines 73-76): [(left, top, right, bottom)]
    inside a resized image of [new_width] x [new_height]. *)
Definition center_crop (new_width new_height target_width target_height : Z)
    : Z * Z * Z * Z :=
  let left := ((new_width - target_width) / 2)%Z in
  let top := ((new_height - target_height) / 2)%Z in
  (left, top, (left + target_width)%Z, (top + target_height)%Z).

End Overlay.

(** ** More sample inputs *)

Module Sample.

Definition queue3 : list string :=
  ["/home/pi/images/c.png"; "/home/pi/images/a.jpg"; "/home/pi/images/b.jpg"].

Definition full : state :=
  {| display_queue := queue3; total_in_cycle := 3;
     STATE_FILE := Doc (StateStore.record queue3 3) |}.

(** The directory cannot be listed. *)
Definition unlisted : env :=
  {| listdir := Raises; draws := []; render := Demo.rendering;
     sink := Displayed; write := Written; removes := true |}.

(** The directory holds no image. *)
Definition no_images : env :=
  {| listdir := Returns ["notes.txt"]; draws := []; render := Demo.rendering;
     sink := Displayed; write := Written; removes := true |}.


(** The directory holds no image and the state file cannot be removed. *)
Definition locked : env :=
  {| listdir := Returns ["notes.txt"]; draws := []; render := Demo.rendering;
     sink := Displayed; write := Written; removes := false |}.

Definition drained : state :=
  {| display_queue := []; total_in_cycle := 3;
     STATE_FILE := Doc (StateStore.record [] 3) |}.

End Sample.

(** * Properties *)

(** ** The shuffle permutes *)

Section ShuffleFacts.
Context {A : Type}.
Implicit Types x : list A.

Lemma swap_perm x i j : Shuffle.swap x i j ≡ₚ x.
Proof.
  unfold Shuffle.swap.
  destruct (x !! i) as [a|] eqn:Hi; [|reflexivity].
  destruct (x !! j) as [b|] eqn:Hj; [|reflexivity].
  by apply Permutation_insert_swap.
Qed.

Lemma loop_perm i draws x : Shuffle.loop i draws x ≡ₚ x.
Proof.
  revert draws x. induction i as [|i IH]; intros draws x; [reflexivity|].
  cbn [Shuffle.loop].
  destruct (Shuffle.randbelow (S (S i)) draws) as [j rest].
  rewrite IH. apply swap_perm.
Qed.

Lemma shuffle_perm draws x : Shuffle.shuffle draws x ≡ₚ x.
Proof. apply loop_perm. Qed.

Lemma shuffle_length draws x :
  List.length (Shuffle.shuffle draws x) = List.length x.
Proof. apply Permutation_length, shuffle_perm. Qed.

End ShuffleFacts.

(** ** Steps of the loop body, case by case *)

Ltac unfold_M :=
  unfold Controller.body, Controller.wait, Controller.display,
    Controller.hand_to_sink, Controller.save, Controller.prepare,
    Controller.insert0, Controller.pop0, Controller.refill,
    Controller.remove_state, Controller.list_images, Controller.sleep,
    Controller.try_except, Controller.emit,
    Controller.raise, Controller.continue, Controller.get_queue,
    Controller.get_file, Controller.set_queue,
    Controller.set_total, Controller.set_file, state_after,
    mbind, mret, M_bind, M_ret in *.

Section LoopFacts.
Variable cfg : config.

Lemma refill_idle e s p rest :
  display_queue s = p :: rest ->
  Controller.refill cfg e s = (Next tt, s, []).
Proof. intros Hq. unfold_M. by rewrite Hq. Qed.

Lemma refill_fresh e s names f fs :
  display_queue s = [] ->
  listdir e = Returns names ->
  Controller.image_paths (PHOTO_DIR cfg) names = f :: fs ->
  Controller.refill cfg e s =
    (Next tt,
     {| display_queue := Shuffle.shuffle (draws e) (f :: fs);
        total_in_cycle := List.length (Shuffle.shuffle (draws e) (f :: fs));
        STATE_FILE := STATE_FILE s |},
     [Log INFO QueueEmpty]).
Proof. intros Hq Hl Hf. unfold_M. rewrite Hq, Hl. cbn. by rewrite Hf. Qed.

End LoopFacts.

(** ** The Photo Collection has no repeated path *)

Lemma append_inj_r (a b c : string) : a +:+ b = a +:+ c -> b = c.
Proof. induction a as [|x a IH]; cbn; intros H; [done|]. injection H as H. auto. Qed.

Lemma path_join_inj (a b c : string) :
  String.prefix "/" b = false -> String.prefix "/" c = false ->
  Controller.path_join a b = Controller.path_join a c -> b = c.
Proof.
  unfold Controller.path_join. intros -> ->.
  destruct (String.eqb a "" || Str.endswith a "/").
  - apply append_inj_r.
  - intros H. apply append_inj_r in H. by apply (append_inj_r "/") in H.
Qed.

Lemma image_paths_NoDup (photo_dir : string) (names : list string) :
  NoDup names ->
  Forall (fun f => String.prefix "/" f = false) names ->
  NoDup (Controller.image_paths photo_dir names).
Proof.
  intros Hnd Hsl. unfold Controller.image_paths.
  induction Hnd as [|f names Hf Hnd IH]; [constructor|].
  apply Forall_cons in Hsl as [Hf0 Hsl].
  rewrite filter_cons. destruct (decide (Controller.is_image f = true)); [|auto].
  cbn. constructor; [|auto].
  intros [g [Hg Hin]]%list_elem_of_fmap.
  apply list_elem_of_filter in Hin as [_ Hin].
  rewrite Forall_forall in Hsl.
  apply path_join_inj in Hg; [subst; contradiction| done | by apply Hsl].
Qed.

(** C1. After a Refill over a non-empty file list the Display Queue is a
    permutation of the collection's paths, each path occurring as often as in
    the collection (once, since directory entries are distinct and carry no
    separator), and the count is the collection size. *)
Theorem refill_permutes_collection (cfg : config) (e : env) (s : state)
    (names : list string) :
  display_queue s = [] ->
  listdir e = Returns names ->
  Controller.image_paths (PHOTO_DIR cfg) names <> [] ->
  let files := Controller.image_paths (PHOTO_DIR cfg) names in
  let s' := state_after (Controller.refill cfg e) s in
  fst (fst (Controller.refill cfg e s)) = Next tt /\
  display_queue s' ≡ₚ files /\
  total_in_cycle s' = List.length files /\
  List.length (display_queue s') = List.length files /\
  (forall p, p ∈ display_queue s' <-> p ∈ files) /\
  (NoDup names -> Forall (fun f => String.prefix "/" f = false) names ->
   NoDup (display_queue s')).
Proof.
  intros Hq Hl Hne files s'. subst s'. unfold state_after.
  destruct files as [|f fs] eqn:Hf; [done|].
  rewrite (refill_fresh cfg e s names f fs Hq Hl Hf).
  cbn [fst snd display_queue total_in_cycle].
  pose proof (shuffle_perm (draws e) (f :: fs)) as Hp.
  repeat split.
  - exact Hp.
  - by rewrite shuffle_length.
  - by rewrite shuffle_length.
  - by rewrite Hp.
  - by rewrite Hp.
  - intros Hnd Hsl. rewrite Hp. fold files. rewrite <- Hf. subst files.
    by apply image_paths_NoDup.
Qed.

Lemma refill_permutes_collection_witness :
  display_queue Demo.fresh = [] /\
  listdir Demo.fine = Returns Demo.names /\
  Controller.image_paths (PHOTO_DIR Demo.cfg) Demo.names <> [] /\
  display_queue (state_after (Controller.refill Demo.cfg Demo.fine) Demo.fresh)
    ≡ₚ ["/home/pi/images/a.jpg"; "/home/pi/images/b.jpg"; "/home/pi/images/c.png"] /\
  total_in_cycle (state_after (Controller.refill Demo.cfg Demo.fine) Demo.fresh) = 3.
Proof.
  assert (Hne : Controller.image_paths (PHOTO_DIR Demo.cfg) Demo.names <> [])
    by (vm_compute; discriminate).
  repeat split; try reflexivity; try exact Hne;
    apply (refill_permutes_collection Demo.cfg Demo.fine Demo.fresh Demo.names
             eq_refl eq_refl Hne).
Defined.

(** ** One pass of the loop, step by step *)

Section PassFacts.
Variable cfg : config.

Lemma body_select_serve e s :
  Controller.body cfg e s =
  (image_path ← Controller.select cfg e; Controller.serve cfg e image_path) s.
Proof.
  unfold Controller.body, Controller.select, Controller.serve.
  unfold mbind, M_bind.
  destruct (Controller.refill cfg e s) as [[[[]| |] s1] t1]; [|done|done].
  destruct (Controller.pop0 s1) as [[[p| |] s2] t2]; [|done|done].
  destruct (Controller.emit _ s2) as [[[[]| |] s3] t3]; cbn.
  - destruct (Controller.prepare e p s3) as [[[img| |] s4] t4]; cbn.
    + destruct (Controller.display e p img s4) as [[[[]| |] s5] t5]; cbn.
      * destruct (Controller.wait cfg s5) as [[r s6] t6].
        by rewrite !app_assoc.
      * by rewrite !app_assoc.
      * by rewrite !app_assoc.
    + by rewrite !app_assoc.
    + by rewrite !app_assoc.
  - by rewrite !app_assoc.
  - by rewrite !app_assoc.
Qed.

(** Select either pops the head of a non-empty queue or pops the head of a
    fresh shuffle; it never touches the state file. *)
Lemma select_next e s p s1 t1 :
  Controller.select cfg e s = (Next p, s1, t1) ->
  STATE_FILE s1 = STATE_FILE s /\
  ((display_queue s = p :: display_queue s1 /\
    total_in_cycle s1 = total_in_cycle s /\ t1 = []) \/
   (display_queue s = [] /\ t1 = [Log INFO QueueEmpty] /\
    exists names,
      listdir e = Returns names /\
      Shuffle.shuffle (draws e) (Controller.image_paths (PHOTO_DIR cfg) names)
        = p :: display_queue s1 /\
      total_in_cycle s1 =
        List.length (Controller.image_paths (PHOTO_DIR cfg) names))).
Proof.
  unfold Controller.select. unfold mbind at 1. unfold M_bind.
  destruct (display_queue s) as [|q rest] eqn:Hq.
  - destruct (listdir e) as [names|] eqn:Hl.
    + destruct (Controller.image_paths (PHOTO_DIR cfg) names) as [|f fs] eqn:Hf.
      * unfold_M. rewrite Hq, Hl. cbn. rewrite Hf.
        destruct (STATE_FILE s), (removes e); cbn; discriminate.
      * rewrite (refill_fresh cfg e s names f fs Hq Hl Hf).
        pose proof (shuffle_length (draws e) (f :: fs)) as Hlen.
        destruct (Shuffle.shuffle (draws e) (f :: fs)) as [|x xs] eqn:Hs;
          [discriminate|].
        unfold_M. cbn.
        intros H. injection H as <- <- <-. cbn. split; [done|]. right.
        repeat split. exists names. rewrite Hf, Hs. by rewrite <- Hlen.
    + unfold_M. rewrite Hq, Hl. discriminate.
  - rewrite (refill_idle cfg e s q rest Hq). unfold_M. rewrite Hq. cbn.
    intros H. injection H as <- <- <-. cbn. split; [done|]. by left.
Qed.

End PassFacts.

(** ** Render *)

Lemma extract_quiet image_path r :
  Forall (fun ev => quiet ev = true)
         (snd (Extractor.extract_capture_date image_path r)).
Proof.
  unfold Extractor.extract_capture_date.
  destruct (String.eqb _ _); [constructor|].
  destruct r; cbn; repeat constructor.
Qed.

Lemma extract_returns image_path r :
  exists v, fst (Extractor.extract_capture_date image_path r) = Returns v.
Proof.
  unfold Extractor.extract_capture_date.
  destruct (String.eqb _ _); [by eexists|].
  destruct r; cbn; by eexists.
Qed.

Lemma prepare_image_quiet e image_path :
  Forall (fun ev => quiet ev = true) (snd (Render.prepare_image e image_path)).
Proof.
  unfold Render.prepare_image.
  pose proof (extract_quiet image_path (exif e)) as Hq.
  destruct (decodes e); [|repeat constructor].
  destruct (Extractor.extract_capture_date image_path (exif e)) as [[v|] t];
    cbn in Hq; [destruct (overlays e)|]; cbn;
    repeat (apply Forall_cons; split; [done|]);
    try (apply Forall_app; split); try done; repeat constructor.
Qed.

Lemma prepare_image_failure_logged e image_path t :
  Render.prepare_image e image_path = (None, t) ->
  In (Log ERROR (RenderError image_path)) t.
Proof.
  unfold Render.prepare_image.
  destruct (decodes e).
  - destruct (Extractor.extract_capture_date image_path (exif e)) as [[v|] t0];
      [destruct (overlays e)|]; intros H; try discriminate;
      injection H as <-; cbn; rewrite ?in_app_iff; cbn; auto.
  - intros H. injection H as <-. cbn. auto.
Qed.

Lemma quiet_not_sink t :
  Forall (fun ev => quiet ev = true) t -> Forall (fun ev => sink_call ev = false) t.
Proof. intros H. eapply Forall_impl; [exact H|]. by intros []. Qed.

Lemma quiet_not_store t :
  Forall (fun ev => quiet ev = true) t -> Forall (fun ev => store_call ev = false) t.
Proof. intros H. eapply Forall_impl; [exact H|]. by intros []. Qed.

(** ** Steps 3-5 for a selected path *)

Section ServeFacts.
Variable cfg : config.

Ltac serve_cases :=
  unfold Controller.serve, Controller.wait_flow, Controller.wait_trace,
    Controller.sink_trace;
  unfold_M.

Lemma serve_unrendered e p s1 t2 :
  Render.prepare_image (render e) p = (None, t2) ->
  Controller.serve cfg e p s1 =
    (Controller.wait_flow cfg, s1,
     Log INFO (DisplayStart p) :: t2 ++ Controller.wait_trace cfg).
Proof.
  intros Hr. serve_cases. rewrite Hr.
  destruct s1 as [q n f]. destruct (INTERVAL_SECONDS cfg <? 0)%Z; cbn;
    by rewrite ?app_nil_r.
Qed.

Lemma serve_displayed e p s1 img t2 :
  Render.prepare_image (render e) p = (Some img, t2) ->
  sink e = Displayed ->
  Controller.serve cfg e p s1 =
    (Controller.wait_flow cfg,
     {| display_queue := display_queue s1;
        total_in_cycle := total_in_cycle s1;
        STATE_FILE := fst (StateStore.save_state (write e) (display_queue s1)
                             (total_in_cycle s1) (STATE_FILE s1)) |},
     Log INFO (DisplayStart p) :: t2 ++
       [SetImage img; ShowPanel; Log INFO (DisplayOk p)] ++
       snd (StateStore.save_state (write e) (display_queue s1)
              (total_in_cycle s1) (STATE_FILE s1)) ++
       Controller.wait_trace cfg).
Proof.
  intros Hr Hs. serve_cases. rewrite Hr, Hs.
  destruct s1 as [q n f].
  destruct (write e), (INTERVAL_SECONDS cfg <? 0)%Z; cbn;
    by rewrite ?app_nil_r.
Qed.

Lemma serve_display_failed e p s1 img t2 :
  Render.prepare_image (render e) p = (Some img, t2) ->
  sink e <> Displayed ->
  Controller.serve cfg e p s1 =
    (Controller.wait_flow cfg,
     {| display_queue := p :: display_queue s1;
        total_in_cycle := total_in_cycle s1;
        STATE_FILE := STATE_FILE s1 |},
     Log INFO (DisplayStart p) :: t2 ++
       Controller.sink_trace (sink e) img ++ [Log ERROR DisplayError] ++
       Controller.wait_trace cfg).
Proof.
  intros Hr Hs. serve_cases. rewrite Hr.
  destruct s1 as [q n f].
  destruct (sink e); [done| |];
    destruct (INTERVAL_SECONDS cfg <? 0)%Z; cbn; by rewrite ?app_nil_r.
Qed.

Lemma iteration_select_serve e s p s1 t1 r s2 t2 :
  Controller.select cfg e s = (Next p, s1, t1) ->
  Controller.serve cfg e p s1 = (r, s2, t2) ->
  Controller.iteration cfg e s = (s2, t1 ++ t2 ++ Controller.backoff r).
Proof.
  intros H1 H2. unfold Controller.iteration.
  rewrite body_select_serve. unfold mbind, M_bind. rewrite H1, H2.
  destruct r; cbn; by rewrite ?app_nil_r, ?app_assoc.
Qed.

End ServeFacts.

(** ** Display failure, display success, render failure *)

Lemma wait_trace_no_store cfg :
  Forall (fun ev => store_call ev = false) (Controller.wait_trace cfg).
Proof.
  unfold Controller.wait_trace.
  destruct (INTERVAL_SECONDS cfg <? 0)%Z; repeat constructor.
Qed.

Lemma wait_trace_no_sink cfg :
  Forall (fun ev => sink_call ev = false) (Controller.wait_trace cfg).
Proof.
  unfold Controller.wait_trace.
  destruct (INTERVAL_SECONDS cfg <? 0)%Z; repeat constructor.
Qed.

Lemma backoff_no_store {A} (r : flow A) :
  Forall (fun ev => store_call ev = false) (Controller.backoff r).
Proof. destruct r; repeat constructor. Qed.

Lemma backoff_no_sink {A} (r : flow A) :
  Forall (fun ev => sink_call ev = false) (Controller.backoff r).
Proof. destruct r; repeat constructor. Qed.

Lemma select_no_store cfg e s p s1 t1 :
  Controller.select cfg e s = (Next p, s1, t1) ->
  Forall (fun ev => store_call ev = false) t1 /\
  Forall (fun ev => sink_call ev = false) t1.
Proof.
  intros H. apply select_next in H as [_ [(_ & _ & ->)|(_ & -> & _)]];
    split; repeat constructor.
Qed.

(** C4. When the sink call fails for the popped path, the pass leaves that
    path at the front of the queue, in front of what was behind it; it writes
    nothing to the state file, which keeps its content; and the next pass
    selects the same path again, whatever its environment. *)
Theorem display_failure_requeues_front (cfg : config) (e : env) (s : state)
    (p : string) (s1 : state) (t1 : list event) (img : image) (t2 : list event) :
  Controller.select cfg e s = (Next p, s1, t1) ->
  Render.prepare_image (render e) p = (Some img, t2) ->
  sink e <> Displayed ->
  let s' := fst (Controller.iteration cfg e s) in
  let tr := snd (Controller.iteration cfg e s) in
  display_queue s' = p :: display_queue s1 /\
  total_in_cycle s' = total_in_cycle s1 /\
  STATE_FILE s' = STATE_FILE s /\
  Forall (fun ev => store_call ev = false) tr /\
  In (SetImage img) tr /\
  In (Log ERROR DisplayError) tr /\
  forall e', exists t',
    Controller.select cfg e' s' =
      (Next p, {| display_queue := display_queue s1;
                  total_in_cycle := total_in_cycle s1;
                  STATE_FILE := STATE_FILE s |}, t').
Proof.
  intros Hsel Hr Hs s' tr. subst s' tr.
  rewrite (iteration_select_serve cfg e s p s1 t1 _ _ _ Hsel
             (serve_display_failed cfg e p s1 img t2 Hr Hs)).
  destruct (select_no_store cfg e s p s1 t1 Hsel) as [Ht1 _].
  apply select_next in Hsel as [Hf _].
  cbn [fst snd display_queue total_in_cycle STATE_FILE].
  split; [done|]. split; [done|]. split; [done|]. split; [|split; [|split]].
  - apply Forall_app; split; [done|].
    apply Forall_app; split; [|apply backoff_no_store].
    apply Forall_cons; split; [done|].
    apply Forall_app; split;
      [apply quiet_not_store; rewrite <- (f_equal snd Hr : _ = t2);
       apply prepare_image_quiet|].
    apply Forall_app; split; [destruct (sink e); repeat constructor|].
    apply Forall_app; split; [repeat constructor|apply wait_trace_no_store].
  - rewrite !in_app_iff. right. left. right. rewrite !in_app_iff. right. left.
    destruct (sink e); by left.
  - rewrite !in_app_iff. right. left. right. rewrite !in_app_iff.
    right. right. left. by left.
  - intros e'. eexists. unfold Controller.select. unfold mbind at 1. unfold M_bind.
    erewrite refill_idle by reflexivity. unfold_M. cbn. by rewrite Hf.
Qed.

Lemma display_failure_requeues_front_witness :
  let p := "/home/pi/images/b.jpg" in
  let s' := fst (Controller.iteration Demo.cfg Demo.panel_down Demo.midway) in
  sink Demo.panel_down <> Displayed /\
  display_queue s' = display_queue Demo.midway /\
  STATE_FILE s' = STATE_FILE Demo.midway.
Proof.
  intros p s'.
  assert (Hs : sink Demo.panel_down <> Displayed) by discriminate.
  pose proof (display_failure_requeues_front Demo.cfg Demo.panel_down Demo.midway
                p _ _ _ _ eq_refl eq_refl Hs) as H.
  cbv zeta in H. destruct H as (Hq & _ & Hf & _).
  split; [exact Hs|]. split; [exact Hq | exact Hf].
Defined.

Lemma as_paths_of_paths q : Py.as_paths (map JStr q) = Some q.
Proof. induction q as [|p q IH]; [done|]. cbn. by rewrite IH. Qed.

(** C5, as stated, fails: [save_state] catches every exception of the write
    (lines 72-73), so a successful display is not always followed by a state
    file that holds the post-pop queue. Here the file cannot be opened: the
    image is shown, the queue loses its head, and the file still holds the
    record with the shown path at the front. *)
Lemma write_failure_leaves_stale_record :
  let p := "/home/pi/images/b.jpg" in
  let s' := fst (Controller.iteration Demo.cfg Demo.read_only Demo.midway) in
  let tr := snd (Controller.iteration Demo.cfg Demo.read_only Demo.midway) in
  sink Demo.read_only = Displayed /\
  Loop.shown tr = [p] /\
  In ShowPanel tr /\
  display_queue Demo.midway = p :: display_queue s' /\
  STATE_FILE s' = Doc (StateStore.record (p :: display_queue s') 3) /\
  STATE_FILE s' <> Doc (StateStore.record (display_queue s') (total_in_cycle s')) /\
  fst (StateStore.load_state (STATE_FILE s')) <>
    (JInt (Z.of_nat (total_in_cycle s')), Py.of_paths (display_queue s')).
Proof. vm_compute. repeat split; auto 10; discriminate. Qed.

(** C5, amended. A successful display leaves the queue one shorter: the queue
    it started from without its head or, when that queue was empty, the fresh
    shuffle of the collection without its head. [save_state] is called with
    exactly that queue and the count of the cycle. When the write goes
    through the state file holds exactly that pair; when the file cannot be
    opened it keeps what it held before the pass, and when the write stops
    half way it is left unparsable. Without a Refill the count is the one the
    pass started with. *)
Theorem successful_display_consumes_one (cfg : config) (e : env) (s : state)
    (p : string) (s1 : state) (t1 : list event) (img : image) (t2 : list event) :
  Controller.select cfg e s = (Next p, s1, t1) ->
  Render.prepare_image (render e) p = (Some img, t2) ->
  sink e = Displayed ->
  let s' := fst (Controller.iteration cfg e s) in
  let tr := snd (Controller.iteration cfg e s) in
  (display_queue s <> [] ->
     display_queue s = p :: display_queue s' /\
     S (List.length (display_queue s')) = List.length (display_queue s) /\
     total_in_cycle s' = total_in_cycle s) /\
  (display_queue s = [] ->
     exists names,
       listdir e = Returns names /\
       p :: display_queue s' ≡ₚ Controller.image_paths (PHOTO_DIR cfg) names /\
       S (List.length (display_queue s')) = total_in_cycle s') /\
  In (SetImage img) tr /\ In ShowPanel tr /\
  In (DumpState (display_queue s') (total_in_cycle s')) tr /\
  (write e = Written ->
     STATE_FILE s' = Doc (StateStore.record (display_queue s') (total_in_cycle s')) /\
     fst (StateStore.load_state (STATE_FILE s')) =
       (JInt (Z.of_nat (total_in_cycle s')), Py.of_paths (display_queue s'))) /\
  (write e = NotOpened -> STATE_FILE s' = STATE_FILE s) /\
  (write e = Truncated -> STATE_FILE s' = Unparsable).
Proof.
  intros Hsel Hr Hs s' tr. subst s' tr.
  rewrite (iteration_select_serve cfg e s p s1 t1 _ _ _ Hsel
             (serve_displayed cfg e p s1 img t2 Hr Hs)).
  apply select_next in Hsel as [Hf Hcase].
  cbn [fst snd display_queue total_in_cycle STATE_FILE].
  split; [|split; [|split; [|split; [|split; [|split; [|split]]]]]].
  - intros Hne. destruct Hcase as [(Hq & Ht & _)|(Hq & _)]; [|done].
    rewrite Hq. by repeat split.
  - intros Hq. destruct Hcase as [(Hq' & _)|(_ & _ & names & Hl & Hsh & Ht)].
    + by rewrite Hq in Hq'.
    + exists names. split; [done|]. split.
      * rewrite <- Hsh. apply shuffle_perm.
      * rewrite Ht.
        rewrite <- (shuffle_length (draws e)
                      (Controller.image_paths (PHOTO_DIR cfg) names)).
        by rewrite Hsh.
  - rewrite !in_app_iff. right. left. right. rewrite !in_app_iff. right. left.
    by left.
  - rewrite !in_app_iff. right. left. right. rewrite !in_app_iff. right. left.
    right. by left.
  - rewrite !in_app_iff. right. left. right. rewrite !in_app_iff. right. right. left.
    destruct (write e); by left.
  - intros ->. cbn. done.
  - intros ->. cbn. done.
  - intros ->. cbn. done.
Qed.

Lemma successful_display_consumes_one_witness :
  let s' := fst (Controller.iteration Demo.cfg Demo.fine Demo.midway) in
  sink Demo.fine = Displayed /\ write Demo.fine = Written /\
  display_queue Demo.midway = "/home/pi/images/b.jpg" :: display_queue s' /\
  STATE_FILE s' = Doc (StateStore.record ["/home/pi/images/a.jpg"] 3).
Proof.
  intros s'.
  pose proof (successful_display_consumes_one Demo.cfg Demo.fine Demo.midway
                "/home/pi/images/b.jpg" _ _ _ _ eq_refl eq_refl eq_refl) as H.
  cbv zeta in H. destruct H as (Hq & _ & _ & _ & _ & Hw & _).
  split; [reflexivity|]. split; [reflexivity|]. split.
  - apply Hq. discriminate.
  - apply (Hw eq_refl).
Defined.

(** C7, as stated, fails: after a render failure the pass still runs step 5.
    Here the file cannot be decoded, nothing reaches the sink, and the pass
    ends with the interval sleep. *)
Lemma render_failure_still_waits :
  let p := "/home/pi/images/b.jpg" in
  let tr := snd (Controller.iteration Demo.cfg Demo.broken_file Demo.midway) in
  fst (fst (Controller.select Demo.cfg Demo.broken_file Demo.midway)) = Next p /\
  fst (Render.prepare_image (render Demo.broken_file) p) = None /\
  In (Sleep (INTERVAL_SECONDS Demo.cfg)) tr /\
  last tr = Some (Sleep 1800).
Proof. vm_compute. repeat split; auto 10. Qed.

(** C7, amended. When Render fails for the popped path the failure is logged,
    nothing is handed to the sink, nothing is written to the state file, the
    path is not put back in the queue, and the pass then performs the Wait of
    step 5 like any other pass: with a non-negative interval its last two
    events are the waiting log line and the interval sleep. *)
Theorem render_failure_skips_display_not_wait (cfg : config) (e : env)
    (s : state) (p : string) (s1 : state) (t1 t2 : list event) :
  Controller.select cfg e s = (Next p, s1, t1) ->
  Render.prepare_image (render e) p = (None, t2) ->
  let s' := fst (Controller.iteration cfg e s) in
  let tr := snd (Controller.iteration cfg e s) in
  In (Log ERROR (RenderError p)) tr /\
  Forall (fun ev => sink_call ev = false) tr /\
  Forall (fun ev => store_call ev = false) tr /\
  STATE_FILE s' = STATE_FILE s /\
  s' = s1 /\
  ((0 <= INTERVAL_SECONDS cfg)%Z ->
   exists before,
     tr = before ++ [Log INFO Waiting; Sleep (INTERVAL_SECONDS cfg)]).
Proof.
  intros Hsel Hr s' tr. subst s' tr.
  rewrite (iteration_select_serve cfg e s p s1 t1 _ _ _ Hsel
             (serve_unrendered cfg e p s1 t2 Hr)).
  destruct (select_no_store cfg e s p s1 t1 Hsel) as [Hst Hsk].
  apply select_next in Hsel as [Hf _].
  pose proof (prepare_image_quiet (render e) p) as Hq. rewrite Hr in Hq. cbn in Hq.
  cbn [fst snd].
  split; [|split; [|split; [|split; [|split]]]]; try done.
  - rewrite !in_app_iff. right. left. right. rewrite in_app_iff. left.
    by apply prepare_image_failure_logged with (e := render e).
  - apply Forall_app; split; [done|].
    apply Forall_app; split; [|apply backoff_no_sink].
    apply Forall_cons; split; [done|].
    apply Forall_app; split; [by apply quiet_not_sink|apply wait_trace_no_sink].
  - apply Forall_app; split; [done|].
    apply Forall_app; split; [|apply backoff_no_store].
    apply Forall_cons; split; [done|].
    apply Forall_app; split; [by apply quiet_not_store|apply wait_trace_no_store].
  - intros Hi. unfold Controller.wait_flow, Controller.wait_trace.
    destruct (INTERVAL_SECONDS cfg <? 0)%Z eqn:Hneg; [lia|].
    exists (t1 ++ Log INFO (DisplayStart p) :: t2). cbn.
    by rewrite app_nil_r, <- app_assoc.
Qed.

Lemma render_failure_skips_display_not_wait_witness :
  let p := "/home/pi/images/b.jpg" in
  let s' := fst (Controller.iteration Demo.cfg Demo.broken_file Demo.midway) in
  let tr := snd (Controller.iteration Demo.cfg Demo.broken_file Demo.midway) in
  fst (Render.prepare_image (render Demo.broken_file) p) = None /\
  display_queue s' = ["/home/pi/images/a.jpg"] /\
  STATE_FILE s' = STATE_FILE Demo.midway /\
  Forall (fun ev => sink_call ev = false) tr.
Proof.
  intros p s' tr.
  pose proof (render_failure_skips_display_not_wait Demo.cfg Demo.broken_file
                Demo.midway p _ _ _ eq_refl eq_refl) as H.
  cbv zeta in H. destruct H as (_ & Hk & _ & Hf & Hs & _).
  split; [reflexivity|]. split; [|split; [exact Hf | exact Hk]].
  fold s' in Hs. by rewrite Hs.
Defined.

(** ** The Cycle State invariant *)

Section InvariantFacts.
Variable cfg : config.

Lemma refill_state e s :
  let s1 := state_after (Controller.refill cfg e) s in
  (display_queue s1 = display_queue s /\ total_in_cycle s1 = total_in_cycle s) \/
  total_in_cycle s1 = List.length (display_queue s1).
Proof.
  unfold_M.
  destruct (display_queue s) as [|q rest] eqn:Hq; [|left; cbn; auto].
  destruct (listdir e) as [names|]; [|left; cbn; auto].
  cbn -[Shuffle.shuffle].
  destruct (Controller.image_paths (PHOTO_DIR cfg) names) as [|f fs].
  - left. destruct (STATE_FILE s), (removes e); cbn; auto.
  - right. reflexivity.
Qed.

Lemma refill_inv e s :
  cycle_inv s -> cycle_inv (state_after (Controller.refill cfg e) s).
Proof.
  unfold cycle_inv. intros H.
  destruct (refill_state e s) as [[-> ->]| ->]; [done|lia].
Qed.

(** When Select does not yield a path the queue is empty. *)
Lemma select_stuck e s r s1 t1 :
  Controller.select cfg e s = (r, s1, t1) ->
  (forall p, r <> Next p) -> display_queue s1 = [].
Proof.
  unfold Controller.select. unfold_M.
  destruct (display_queue s) as [|q rest] eqn:Hq.
  - destruct (listdir e) as [names|].
    + cbn -[Shuffle.shuffle].
      destruct (Controller.image_paths (PHOTO_DIR cfg) names) as [|f fs].
      * destruct (STATE_FILE s), (removes e); cbn; intros H _;
          by simplify_eq.
      * cbn -[Shuffle.shuffle].
        destruct (Shuffle.shuffle (draws e) (f :: fs)) as [|x xs];
          cbn; intros H Hr; injection H as <- <- <-; [done|].
        by destruct (Hr x).
    + intros H _. by injection H as <- <- <-.
  - rewrite Hq. cbn. intros H Hr. injection H as <- <- <-. by destruct (Hr q).
Qed.

Lemma select_room e s p s1 t1 :
  Controller.select cfg e s = (Next p, s1, t1) ->
  cycle_inv s ->
  S (List.length (display_queue s1)) <= total_in_cycle s1.
Proof.
  unfold cycle_inv. intros Hsel Hinv.
  apply select_next in Hsel as [_ [(Hq & -> & _)|(_ & _ & names & _ & Hsh & ->)]].
  - by rewrite Hq in Hinv.
  - rewrite <- (shuffle_length (draws e)
                  (Controller.image_paths (PHOTO_DIR cfg) names)).
    by rewrite Hsh.
Qed.

Lemma serve_state e p s1 :
  let s2 := state_after (Controller.serve cfg e p) s1 in
  total_in_cycle s2 = total_in_cycle s1 /\
  (display_queue s2 = display_queue s1 \/
   display_queue s2 = p :: display_queue s1).
Proof.
  unfold state_after.
  destruct (Render.prepare_image (render e) p) as [[img|] t2] eqn:Hr.
  - destruct (sink e) eqn:Hs.
    + rewrite (serve_displayed cfg e p s1 img t2 Hr Hs). cbn. auto.
    + rewrite (serve_display_failed cfg e p s1 img t2 Hr) by (by rewrite Hs).
      cbn. auto.
    + rewrite (serve_display_failed cfg e p s1 img t2 Hr) by (by rewrite Hs).
      cbn. auto.
  - rewrite (serve_unrendered cfg e p s1 t2 Hr). cbn. auto.
Qed.

Lemma body_inv e s :
  cycle_inv s -> cycle_inv (state_after (Controller.body cfg e) s).
Proof.
  intros Hinv. unfold state_after. rewrite body_select_serve.
  unfold mbind, M_bind.
  destruct (Controller.select cfg e s) as [[[p| |] s1] t1] eqn:Hsel.
  - pose proof (select_room e s p s1 t1 Hsel Hinv) as Hroom.
    pose proof (serve_state e p s1) as [Ht Hq]. unfold state_after in Ht, Hq.
    destruct (Controller.serve cfg e p s1) as [[r s2] t2]. cbn in *.
    unfold cycle_inv. rewrite Ht. destruct Hq as [-> | ->]; cbn; lia.
  - cbn. unfold cycle_inv.
    rewrite (select_stuck e s _ s1 t1 Hsel); [cbn; lia|done].
  - cbn. unfold cycle_inv.
    rewrite (select_stuck e s _ s1 t1 Hsel); [cbn; lia|done].
Qed.

Lemma select_inv e s :
  cycle_inv s ->
  cycle_inv (state_after (_ ← Controller.select cfg e; mret tt) s).
Proof.
  intros Hinv. unfold state_after, mbind, M_bind.
  destruct (Controller.select cfg e s) as [[[p| |] s1] t1] eqn:Hsel; cbn.
  - pose proof (select_room e s p s1 t1 Hsel Hinv). unfold cycle_inv. lia.
  - unfold cycle_inv. rewrite (select_stuck e s _ s1 t1 Hsel); [cbn; lia|done].
  - unfold cycle_inv. rewrite (select_stuck e s _ s1 t1 Hsel); [cbn; lia|done].
Qed.

Lemma iteration_state e s :
  fst (Controller.iteration cfg e s) = state_after (Controller.body cfg e) s.
Proof.
  unfold Controller.iteration, state_after.
  by destruct (Controller.body cfg e s) as [[[[]| |] s1] t1].
Qed.

Lemma reachable_inv s0 s :
  cycle_inv s0 -> reachable_from cfg s0 s -> cycle_inv s.
Proof.
  intros H0 Hr. induction Hr as [|e s Hr IH]; [done|].
  rewrite iteration_state. by apply body_inv.
Qed.

Lemma visited_inv s0 s :
  cycle_inv s0 -> visited cfg s0 s -> cycle_inv s.
Proof.
  intros H0 [Hr|(s1 & e & m & Hr & Hm & ->)]; [by eapply reachable_inv|].
  pose proof (reachable_inv s0 s1 H0 Hr) as H1.
  cbn in Hm. destruct Hm as [<-|[<-|[<-|[]]]].
  - by apply refill_inv.
  - by apply select_inv.
  - by apply body_inv.
Qed.

End InvariantFacts.

(** ** Startup *)

Lemma as_paths_length items q :
  Py.as_paths items = Some q -> List.length q = List.length items.
Proof.
  revert q. induction items as [|x items IH]; intros q; cbn.
  - by intros [= <-].
  - destruct x; try discriminate.
    destruct (Py.as_paths items) as [ps|]; [|discriminate].
    intros [= <-]. cbn. by rewrite (IH ps).
Qed.

Lemma int_ne_false n c :
  Py.int_ne n c = false -> as_int c = Some n.
Proof.
  destruct c as [|b|m| | |]; cbn; try discriminate;
    intros H%negb_false_iff%Z.eqb_eq; by subst.
Qed.

(** C3. At startup, for every saved count and saved queue: the new count is
    the current collection size; when the two counts differ the queue starts
    empty, and when they are equal the queue is the saved one, unchanged and
    in its saved order. *)
Theorem startup_drift_detection (cfg : config) (b : boot_env) (f : state_file)
    (names : list string) (saved_count : Z) (saved_queue : list string) :
  panel_found b = true ->
  photo_dir_found b = true ->
  first_listdir b = Returns names ->
  fst (StateStore.load_state f) = (JInt saved_count, Py.of_paths saved_queue) ->
  let current_count :=
    List.length (Controller.image_paths (PHOTO_DIR cfg) names) in
  exists s t,
    Startup.startup cfg b f = (Runs s, t) /\
    total_in_cycle s = current_count /\
    STATE_FILE s = f /\
    (Z.of_nat current_count <> saved_count -> display_queue s = []) /\
    (Z.of_nat current_count = saved_count -> display_queue s = saved_queue).
Proof.
  intros Hp Hd Hl Hload n. subst n. unfold Startup.startup.
  rewrite Hp, Hd, Hl. cbn [negb].
  destruct (StateStore.load_state f) as [saved t1]. cbn in Hload. subst saved.
  cbn [Startup.reconcile Py.int_ne Py.of_paths].
  destruct (Z.eqb_spec
              (Z.of_nat (List.length (Controller.image_paths (PHOTO_DIR cfg) names)))
              saved_count) as [Heq|Hne]; cbn [negb].
  - rewrite as_paths_of_paths. do 2 eexists. split; [reflexivity|]. cbn.
    repeat split; intros; done.
  - do 2 eexists. split; [reflexivity|]. cbn. repeat split; intros; done.
Qed.

Lemma startup_drift_detection_witness :
  let f := STATE_FILE Demo.midway in
  fst (StateStore.load_state f) = (JInt 3, Py.of_paths (display_queue Demo.midway)) /\
  Z.of_nat (List.length (Controller.image_paths (PHOTO_DIR Demo.cfg) Demo.names)) = 3%Z /\
  exists s t,
    Startup.startup Demo.cfg (Demo.booting Demo.names) f = (Runs s, t) /\
    display_queue s = display_queue Demo.midway.
Proof.
  intros f. split; [reflexivity|]. split; [reflexivity|].
  destruct (startup_drift_detection Demo.cfg (Demo.booting Demo.names) f
              Demo.names 3 (display_queue Demo.midway)
              eq_refl eq_refl eq_refl eq_refl) as (s & t & Hs & _ & _ & _ & Hq).
  exists s, t. split; [exact Hs|]. apply Hq. reflexivity.
Defined.

Lemma startup_inv cfg b f s0 t :
  Startup.startup cfg b f = (Runs s0, t) ->
  saved_inv (fst (StateStore.load_state f)) \/ drift cfg b f ->
  cycle_inv s0.
Proof.
  unfold Startup.startup, drift, saved_inv, cycle_inv.
  destruct (panel_found b); [|discriminate].
  destruct (photo_dir_found b); [|discriminate]. cbn [negb].
  destruct (first_listdir b) as [names|]; [|discriminate].
  destruct (StateStore.load_state f) as [[c q] t1]. cbn [fst snd].
  unfold Startup.reconcile.
  destruct (Py.int_ne _ c) eqn:Hne.
  - intros [= <- _] _. cbn. lia.
  - destruct q as [| | | |items|]; try discriminate.
    destruct (Py.as_paths items) as [ps|] eqn:Hps; [|discriminate].
    intros [= <- _] [Hsaved|(names' & [= <-] & Hdrift)].
    + cbn. rewrite (as_paths_length items ps Hps).
      apply int_ne_false in Hne.
      specialize (Hsaved _ items Hne eq_refl). lia.
    + congruence.
Qed.

(** A record written by [save_state] from a state that satisfies the
    invariant loads as a pair that satisfies it. *)
Lemma saved_inv_record q n :
  List.length q <= n ->
  saved_inv (fst (StateStore.load_state (Doc (StateStore.record q n)))).
Proof.
  intros Hle c items. cbn. intros [= <-] [= <-]. rewrite length_map. lia.
Qed.

(** A legacy record meets a non-empty collection: the counts differ. *)
Lemma legacy_drift cfg b names q :
  first_listdir b = Returns names ->
  Controller.image_paths (PHOTO_DIR cfg) names <> [] ->
  drift cfg b (Doc (StateStore.legacy_record q)).
Proof.
  intros Hl Hne. exists names. split; [done|]. cbn.
  destruct (Controller.image_paths (PHOTO_DIR cfg) names); [done|].
  reflexivity.
Qed.

(** C2, as stated, fails: a legacy record loads as count 0 with its queue,
    and when the photo directory holds no image at startup the counts agree
    (0 = 0), the queue is kept, and the loop starts with a queue longer than
    the count. *)
Lemma legacy_record_breaks_invariant :
  let f := Doc (StateStore.legacy_record ["/home/pi/images/a.jpg"]) in
  fst (StateStore.load_state f) = (JInt 0, Py.of_paths ["/home/pi/images/a.jpg"]) /\
  exists s0 t,
    Startup.startup Demo.cfg (Demo.booting ["notes.txt"]) f = (Runs s0, t) /\
    visited Demo.cfg s0 s0 /\
    ~ cycle_inv s0.
Proof.
  intros f. split; [reflexivity|].
  do 2 eexists. split; [reflexivity|]. split.
  - left. constructor.
  - unfold cycle_inv. vm_compute. lia.
Qed.

(** C2, amended. The invariant holds in every state the controller passes
    through (between passes, and after Refill, Select and Display within a
    pass) provided the loop starts from a loaded pair that satisfies it or
    from a startup comparison that found the counts different. This covers
    records written by [save_state] and a legacy record met by a non-empty
    collection; the pair loaded from a non-empty legacy record does not
    itself satisfy the invariant. *)
Theorem cycle_invariant_from_sound_start (cfg : config) (b : boot_env)
    (f : state_file) (s0 : state) (t : list event) (s : state) :
  Startup.startup cfg b f = (Runs s0, t) ->
  saved_inv (fst (StateStore.load_state f)) \/ drift cfg b f ->
  visited cfg s0 s ->
  cycle_inv s.
Proof.
  intros Hboot Hok Hv.
  apply (visited_inv cfg s0 s); [|exact Hv].
  by apply (startup_inv cfg b f s0 t).
Qed.

Lemma cycle_invariant_from_sound_start_witness :
  let f := Doc (StateStore.legacy_record ["/home/pi/images/a.jpg"]) in
  let b := Demo.booting Demo.names in
  let s0 := {| display_queue := []; total_in_cycle := 3; STATE_FILE := f |} in
  Startup.startup Demo.cfg b f = (Runs s0, [Log INFO LegacyStateFound; Log INFO DriftDetected]) /\
  drift Demo.cfg b f /\
  cycle_inv (fst (Controller.iteration Demo.cfg Demo.fine s0)).
Proof.
  intros f b s0.
  assert (Hd : drift Demo.cfg b f)
    by (apply (legacy_drift Demo.cfg b Demo.names); [reflexivity|discriminate]).
  split; [reflexivity|]. split; [exact Hd|].
  apply (cycle_invariant_from_sound_start Demo.cfg b f s0 _ _ eq_refl (or_intror Hd)).
  left. apply reach_pass, reach_start.
Defined.

(** ** State Store round trip *)

Lemma of_paths_inj q1 q2 : Py.of_paths q1 = Py.of_paths q2 -> q1 = q2.
Proof.
  unfold Py.of_paths. intros [= H]. revert q2 H.
  induction q1 as [|p q1 IH]; intros [|p2 q2]; cbn; try discriminate; [done|].
  intros [= -> H]. f_equal. by apply IH.
Qed.

(** C6, as stated, fails for the legacy shape: a bare array has no place for
    the count, so a queue persisted in that shape with count 1 loads with
    count 0. *)
Lemma legacy_round_trip_loses_count :
  let q := ["/home/pi/images/a.jpg"] in
  fst (StateStore.load_state (Doc (StateStore.legacy_record q)))
    = (JInt 0, Py.of_paths q) /\
  fst (StateStore.load_state (Doc (StateStore.legacy_record q)))
    <> (JInt (Z.of_nat 1), Py.of_paths q).
Proof. split; [reflexivity|discriminate]. Qed.

(** C6, amended. For every queue and count, what [save_state] writes in the
    current record shape loads back as the identical pair, and its queue reads
    back as the same list of paths. A record in the legacy shape loads with
    its queue unchanged and the count 0, so that pair round-trips exactly
    when the count is 0. *)
Theorem state_store_round_trip (queue : list string) (total_count : nat)
    (f : state_file) :
  let f' := fst (StateStore.save_state Written queue total_count f) in
  fst (StateStore.load_state f') = (JInt (Z.of_nat total_count), Py.of_paths queue) /\
  Startup.reconcile total_count (fst (StateStore.load_state f')) = (Some queue, []) /\
  fst (StateStore.load_state (Doc (StateStore.legacy_record queue)))
    = (JInt 0, Py.of_paths queue) /\
  (fst (StateStore.load_state (Doc (StateStore.legacy_record queue)))
     = (JInt (Z.of_nat total_count), Py.of_paths queue) <-> total_count = 0).
Proof.
  cbn. repeat split.
  - rewrite Z.eqb_refl. cbn. by rewrite as_paths_of_paths.
  - intros [= H]. lia.
  - by intros ->.
Qed.

(** ** Capture-Date Extractor *)

(** C8. [extract_capture_date] returns for every path and every behaviour of
    the metadata read; for an extension that lower-cases to [.png] it returns
    nothing at once, with no read; when the read or the parse raises it logs a
    warning and returns nothing. *)
Theorem extract_capture_date_total (image_path : string) (r : exif_read) :
  (exists v, fst (Extractor.extract_capture_date image_path r) = Returns v) /\
  (Str.lower (snd (Extractor.splitext image_path)) = ".png" ->
   Extractor.extract_capture_date image_path r = (Returns None, [])) /\
  (Str.lower (snd (Extractor.splitext image_path)) <> ".png" ->
   r = LoadRaises \/ r = BadDate ->
   Extractor.extract_capture_date image_path r =
     (Returns None, [ReadExif image_path; Log WARNING (ExifError image_path)])) /\
  (Str.lower (snd (Extractor.splitext image_path)) <> ".png" ->
   forall d, r = Date d ->
   Extractor.extract_capture_date image_path r =
     (Returns (Some d), [ReadExif image_path])).
Proof.
  split; [apply extract_returns|].
  unfold Extractor.extract_capture_date.
  destruct (String.eqb_spec (Str.lower (snd (Extractor.splitext image_path))) ".png")
    as [Heq|Hne].
  - repeat split; intros; done.
  - repeat split; intros; try done.
    + by destruct H0 as [-> | ->].
    + by subst.
Qed.

Lemma extract_capture_date_total_witness :
  Str.lower (snd (Extractor.splitext "/home/pi/images/c.PNG")) = ".png" /\
  Extractor.extract_capture_date "/home/pi/images/c.PNG" LoadRaises
    = (Returns None, []) /\
  Extractor.extract_capture_date "/home/pi/images/a.jpg" BadDate
    = (Returns None, [ReadExif "/home/pi/images/a.jpg";
                      Log WARNING (ExifError "/home/pi/images/a.jpg")]).
Proof.
  split; [reflexivity|]. split.
  - apply (extract_capture_date_total "/home/pi/images/c.PNG" LoadRaises).
    reflexivity.
  - apply (extract_capture_date_total "/home/pi/images/a.jpg" BadDate).
    + discriminate.
    + by right.
Defined.

(** ** Elapsed-time labels *)

Open Scope Z_scope.

(** A time of day as [datetime] keeps it. *)
Lemma same_day_gap (a b : datetime) (n : Z) :
  Datetime.toordinal a - Datetime.toordinal b = n ->
  0 <= Datetime.seconds_of_day a < 86400 ->
  0 <= Datetime.seconds_of_day b < 86400 ->
  0 <= microsecond a < 1000000 ->
  0 <= microsecond b < 1000000 ->
  n - 1 <= Datetime.delta_days a b <= n.
Proof.
  unfold Datetime.delta_days. intros -> Ha Hb Hua Hub.
  split.
  - apply Z.div_le_lower_bound; lia.
  - assert (H : ((n * 86400 + (Datetime.seconds_of_day a - Datetime.seconds_of_day b))
                 * 1000000 + (microsecond a - microsecond b)) / (86400 * 1000000)
                < n + 1); [|lia].
    apply Z.div_lt_upper_bound; lia.
Qed.

Lemma valid_time_seconds (d : datetime) :
  Datetime.valid_time d -> 0 <= Datetime.seconds_of_day d < 86400.
Proof.
  unfold Datetime.valid_time, Datetime.seconds_of_day.
  intros (Hh & Hm & Hs & _). lia.
Qed.

Lemma ago_year (n : Z) :
  Datetime.dec n +:+ " year" +:+ (if 1 <? n then "s" else "") +:+ " ago"
  = Labels.ago n "year".
Proof.
  unfold Labels.ago.
  destruct (Z.ltb_spec 1 n), (Z.leb_spec 2 n); (reflexivity || lia).
Qed.

Lemma ago_month (n : Z) :
  Datetime.dec n +:+ " month" +:+ (if 1 <? n then "s" else "") +:+ " ago"
  = Labels.ago n "month".
Proof.
  unfold Labels.ago.
  destruct (Z.ltb_spec 1 n), (Z.leb_spec 2 n); (reflexivity || lia).
Qed.

(** C9. The elapsed phrase goes by whole days: with [years = days // 365]
    positive it is ["N year(s) ago"], else with [months = days // 30] positive
    it is ["N month(s) ago"], else ["Within a month"]; the first line is the
    capture date as [YYYY-MM-DD]; without a capture date both lines are
    ["Unknown date"]. A capture on 2023-01-15 seen on 2024-02-20 reads
    ["1 year ago"], whatever the two times of day. *)
Theorem elapsed_time_labels (now capture : datetime) :
  let days := Datetime.delta_days now capture in
  let years := days / 365 in
  let months := days / 30 in
  let labels := Labels.format_date_and_elapsed_time now (Some capture) in
  fst labels = Datetime.strftime_ymd capture /\
  (0 < years -> snd labels = Labels.ago years "year") /\
  (years <= 0 -> 0 < months -> snd labels = Labels.ago months "month") /\
  (years <= 0 -> months <= 0 -> snd labels = "Within a month") /\
  (0 < years <-> 365 <= days) /\
  (0 < months <-> 30 <= days) /\
  Labels.format_date_and_elapsed_time now None = ("Unknown date", "Unknown date") /\
  (year capture = 2023 -> month capture = 1 -> day capture = 15 ->
   year now = 2024 -> month now = 2 -> day now = 20 ->
   Datetime.valid_time capture -> Datetime.valid_time now ->
   labels = ("2023-01-15", "1 year ago")).
Proof.
  intros days years months labels.
  assert (Hy : 0 < years <-> 365 <= days)
    by (subst years; split; intros H; [|apply Z.div_str_pos; lia];
        destruct (Z.le_gt_cases 365 days) as [|Hlt]; [done|];
        assert (days / 365 <= 0) by (apply Z.lt_succ_r, Z.div_lt_upper_bound; lia);
        lia).
  assert (Hm : 0 < months <-> 30 <= days)
    by (subst months; split; intros H; [|apply Z.div_str_pos; lia];
        destruct (Z.le_gt_cases 30 days) as [|Hlt]; [done|];
        assert (days / 30 <= 0) by (apply Z.lt_succ_r, Z.div_lt_upper_bound; lia);
        lia).
  assert (Hlab : snd labels =
            if 0 <? years then Labels.ago years "year"
            else if 0 <? months then Labels.ago months "month"
            else "Within a month").
  { subst labels. unfold Labels.format_date_and_elapsed_time. cbn [snd].
    fold days. fold years. fold months.
    destruct (0 <? years); [apply ago_year|].
    destruct (0 <? months); [apply ago_month|done]. }
  split; [done|]. split; [|split; [|split; [|split; [|split; [|split]]]]];
    try done.
  - intros H. rewrite Hlab. by destruct (Z.ltb_spec 0 years); [|lia].
  - intros H1 H2. rewrite Hlab.
    destruct (Z.ltb_spec 0 years); [lia|].
    by destruct (Z.ltb_spec 0 months); [|lia].
  - intros H1 H2. rewrite Hlab.
    destruct (Z.ltb_spec 0 years); [lia|].
    by destruct (Z.ltb_spec 0 months); [lia|].
  - intros Hcy Hcm Hcd Hny Hnm Hnd Hc Hn.
    assert (Hord : Datetime.toordinal now - Datetime.toordinal capture = 401)
      by (unfold Datetime.toordinal; rewrite Hcy, Hcm, Hcd, Hny, Hnm, Hnd;
          reflexivity).
    pose proof (same_day_gap now capture 401 Hord
                  (valid_time_seconds now Hn) (valid_time_seconds capture Hc)
                  ltac:(apply Hn) ltac:(apply Hc)) as Hdays.
    fold days in Hdays.
    assert (Hone : years = 1)
      by (subst years; symmetry; apply (Z.div_unique days 365 1 (days - 365)); lia).
    apply injective_projections.
    + subst labels. cbn [fst Labels.format_date_and_elapsed_time].
      unfold Datetime.strftime_ymd. by rewrite Hcy, Hcm, Hcd.
    + rewrite Hlab, Hone. reflexivity.
Qed.

Lemma elapsed_time_labels_witness :
  let capture := Demo.at_midnight 2023 1 15 in
  let now := {| year := 2024; month := 2; day := 20;
                hour := 7; minute := 30; second := 0; microsecond := 0 |} in
  Datetime.valid_time capture /\ Datetime.valid_time now /\
  Labels.format_date_and_elapsed_time now (Some capture)
    = ("2023-01-15", "1 year ago").
Proof.
  intros capture now.
  assert (Hc : Datetime.valid_time capture) by (vm_compute; intuition discriminate).
  assert (Hn : Datetime.valid_time now) by (vm_compute; intuition discriminate).
  split; [exact Hc|]. split; [exact Hn|].
  apply (elapsed_time_labels now capture); (reflexivity || assumption).
Defined.

Close Scope Z_scope.

(** ** Strings: lengths, slices and the last dot *)

Lemma length_append (a b : string) :
  String.length (a +:+ b) = String.length a + String.length b.
Proof. induction a as [|c a IH]; simpl; [done|]. by f_equal. Qed.

Lemma drop_append (a b : string) : Str.drop (String.length a) (a +:+ b) = b.
Proof. induction a as [|c a IH]; simpl; [by destruct b|done]. Qed.



Lemma rfind_append (c : ascii) (a b : string) (i : nat) :
  Str.rfind c b = Some i ->
  Str.rfind c (a +:+ b) = Some (String.length a + i).
Proof.
  intros Hb. induction a as [|x a IH]; simpl; [done|]. by rewrite IH.
Qed.

(** ** Suffixes of paths *)

Lemma name_app (d rel : path) :
  rel <> [] -> Preprocess.name (d ++ rel) = Preprocess.name rel.
Proof.
  intros Hne. unfold Preprocess.name.
  destruct (exists_last Hne) as (r & n & ->).
  by rewrite app_assoc, !List.last_last.
Qed.

Lemma suffix_app (d rel : path) :
  rel <> [] -> Preprocess.suffix (d ++ rel) = Preprocess.suffix rel.
Proof. intros Hne. unfold Preprocess.suffix. by rewrite name_app. Qed.

Lemma suffix_nil : Preprocess.suffix [] = "".
Proof. reflexivity. Qed.




Lemma suffix_last (d : path) (n : string) :
  Preprocess.suffix (d ++ [n]) = Preprocess.suffix [n].
Proof. apply suffix_app. discriminate. Qed.



Lemma target_with_suffix (src_path dst_path : path) :
  Preprocess.target src_path dst_path =
  Preprocess.with_suffix dst_path (Preprocess.normalized_ext src_path).
Proof.
  unfold Preprocess.target, Preprocess.normalized_ext. by case_bool_decide.
Qed.



(** ** What one conversion creates *)

Lemma ancestors_prefix (d p : path) :
  p ∈ Preprocess.ancestors d -> p <> [] /\ p `prefix_of` d.
Proof.
  revert p. induction d as [|x d IH]; intros p; cbn.
  - by intros ?%elem_of_nil.
  - intros [->|Hin]%elem_of_cons.
    + split; [done|]. by exists d.
    + apply list_elem_of_fmap in Hin as (q & -> & Hq).
      destruct (IH q Hq) as [_ Hpre]. split; [done|]. by apply prefix_cons.
Qed.




Lemma process_one_image_mono e src_path dst_path overwrite fs :
  fs ⊆ fst (Preprocess.process_one_image e src_path dst_path overwrite fs).
Proof.
  unfold Preprocess.process_one_image.
  destruct (negb overwrite && bool_decide _); [cbn; set_solver|].
  destruct (decoded e src_path); [|cbn; set_solver].
  destruct (mkdirs e _); [|cbn; set_solver].
  destruct (Preprocess.target src_path dst_path) as [t|]; [|cbn; set_solver].
  destruct (saves e t); cbn; set_solver.
Qed.

Lemma process_one_image_converted e src_path dst_path overwrite fs fs' :
  Preprocess.process_one_image e src_path dst_path overwrite fs = (fs', Converted) ->
  exists t, Preprocess.target src_path dst_path = Some t /\ t ∈ fs'.
Proof.
  unfold Preprocess.process_one_image.
  destruct (negb overwrite && bool_decide _); [discriminate|].
  destruct (decoded e src_path); [|discriminate].
  destruct (mkdirs e _); [|discriminate].
  destruct (Preprocess.target src_path dst_path) as [t|]; [|discriminate].
  destruct (saves e t); [|discriminate].
  intros [= <-]. exists t. split; [done|set_solver].
Qed.


Section Keeps.
Variables (input_dir output_dir rel : path).
Hypothesis rel_suffix :
  Preprocess.suffix rel <> Preprocess.normalized_ext (input_dir ++ rel).


End Keeps.

(** ** A whole run of the tool *)

Lemma insert_sorted_perm (p : path) (l : list path) :
  Preprocess.insert_sorted p l ≡ₚ p :: l.
Proof.
  induction l as [|q l IH]; cbn; [done|].
  destruct (Preprocess.path_leb p q); [done|].
  rewrite IH. apply Permutation_swap.
Qed.

Lemma sorted_perm (l : list path) : Preprocess.sorted l ≡ₚ l.
Proof.
  induction l as [|p l IH]; cbn; [done|].
  by rewrite insert_sorted_perm, IH.
Qed.

Lemma process_all_mono e input_dir output_dir overwrite rels fs :
  fs ⊆ fst (Preprocess.process_all e input_dir output_dir overwrite rels fs).
Proof.
  revert fs. induction rels as [|rel0 rest IH]; intros fs; cbn; [done|].
  pose proof (process_one_image_mono e (input_dir ++ rel0) (output_dir ++ rel0)
                overwrite fs) as H1.
  destruct (Preprocess.process_one_image _ _ _ _ fs) as [fs1 o0].
  specialize (IH fs1).
  destruct (Preprocess.process_all _ _ _ _ rest fs1) as [fs2 os].
  cbn in *. set_solver.
Qed.


Section WalkFacts.
Variables (input_dir output_dir rel : path).
Hypothesis rel_is_path : rel <> [].
Hypothesis rel_suffix :
  Preprocess.suffix rel <> Preprocess.normalized_ext (input_dir ++ rel).


End WalkFacts.


Lemma valid_ext_nonempty (rel : path) :
  Preprocess.suffix rel ∈ Preprocess.VALID_EXTS -> rel <> [].
Proof.
  intros Hin ->. rewrite suffix_nil in Hin. revert Hin.
  unfold Preprocess.VALID_EXTS. rewrite !elem_of_cons, elem_of_nil.
  intuition discriminate.
Qed.

Section Reruns.
Variables (found : list path) (input_dir output_dir rel : path).
Hypothesis rel_found : rel ∈ found.
Hypothesis rel_valid : Preprocess.suffix rel ∈ Preprocess.VALID_EXTS.
Hypothesis rel_suffix : Preprocess.suffix rel <> Preprocess.normalized_ext rel.
Hypothesis rel_file : forall rel', rel' ∈ found -> rel `prefix_of` rel' -> rel' = rel.




End Reruns.

(** The skip branch does fire for a name that already carries the normalized
    extension: the second run over [trip/b.jpg] skips it. *)
Example normalized_suffix_skipped_on_rerun :
  let once := Preprocess.reruns [Demo.converting] Demo.found ["in"] ["out"] false ∅ in
  snd (Preprocess.walk_and_process Demo.converting Demo.found ["in"] ["out"] false once)
  = [(["a.jpeg"], Converted); (["trip"; "b.jpg"], Skipped)].
Proof. by vm_compute. Qed.

(** ** A run in which Pillow and the file system work *)



Section Converts.
Variables (input_dir output_dir rel : path).
Hypothesis rel_is_path : rel <> [].
Hypothesis rel_suffix :
  Preprocess.suffix rel <> Preprocess.normalized_ext (input_dir ++ rel).


End Converts.




(** * Further properties of the loop *)

(** ** How a pass can end *)

Section PassCases.
Variable cfg : config.

(** Select yields no path only on an empty queue, when the directory cannot
    be listed or holds no image. *)
Lemma select_halts e s r s1 t1 :
  Controller.select cfg e s = (r, s1, t1) ->
  (forall p, r <> Next p) ->
  display_queue s = [] /\ display_queue s1 = [] /\
  total_in_cycle s1 = total_in_cycle s /\
  ((listdir e = Raises /\ r = Raised /\ s1 = s /\ t1 = [Log INFO QueueEmpty]) \/
   (exists names,
      listdir e = Returns names /\
      Controller.image_paths (PHOTO_DIR cfg) names = [] /\
      ((STATE_FILE s = Absent /\ r = Continue /\ s1 = s /\
        t1 = [Log INFO QueueEmpty; Log ERROR NoImagesFound; Sleep 60]) \/
       (STATE_FILE s <> Absent /\ removes e = true /\ r = Continue /\
        STATE_FILE s1 = Absent /\
        t1 = [Log INFO QueueEmpty; Log ERROR NoImagesFound; RemoveState; Sleep 60]) \/
       (STATE_FILE s <> Absent /\ removes e = false /\ r = Raised /\ s1 = s /\
        t1 = [Log INFO QueueEmpty; Log ERROR NoImagesFound; RemoveState])))).
Proof.
  unfold Controller.select. unfold_M.
  destruct (display_queue s) as [|q rest] eqn:Hq.
  - destruct (listdir e) as [names|] eqn:Hl.
    + cbn -[Shuffle.shuffle].
      destruct (Controller.image_paths (PHOTO_DIR cfg) names) as [|f fs] eqn:Hf.
      * destruct (STATE_FILE s) eqn:Hfile, (removes e) eqn:Hrm; cbn;
          intros H _; injection H as <- <- <-; cbn;
          (split; [done|]); (split; [done|]); (split; [done|]);
          right; exists names; (split; [done|]); (split; [done|]);
          rewrite ?Hfile; auto 10.
      * cbn -[Shuffle.shuffle].
        pose proof (shuffle_length (draws e) (f :: fs)) as Hlen.
        destruct (Shuffle.shuffle (draws e) (f :: fs)) as [|x xs];
          [discriminate|].
        cbn. intros H Hr. injection H as <- <- <-. by destruct (Hr x).
    + intros H _. injection H as <- <- <-. by auto 10.
  - rewrite Hq. cbn. intros H Hr. injection H as <- <- <-. by destruct (Hr q).
Qed.

Lemma iteration_halts e s r s1 t1 :
  Controller.select cfg e s = (r, s1, t1) ->
  (forall p, r <> Next p) ->
  Controller.iteration cfg e s = (s1, t1 ++ Controller.backoff r).
Proof.
  intros Hsel Hr. unfold Controller.iteration.
  rewrite body_select_serve. unfold mbind, M_bind. rewrite Hsel.
  destruct r as [p| |]; [by destruct (Hr p)| |]; cbn; by rewrite ?app_nil_r.
Qed.

(** The three ways steps 3-5 can go for a selected path. *)
Lemma serve_cases e p s1 :
  (exists t2,
     Render.prepare_image (render e) p = (None, t2) /\
     Controller.serve cfg e p s1 =
       (Controller.wait_flow cfg, s1,
        Log INFO (DisplayStart p) :: t2 ++ Controller.wait_trace cfg)) \/
  (exists img t2,
     Render.prepare_image (render e) p = (Some img, t2) /\
     sink e = Displayed /\
     Controller.serve cfg e p s1 =
       (Controller.wait_flow cfg,
        {| display_queue := display_queue s1;
           total_in_cycle := total_in_cycle s1;
           STATE_FILE := fst (StateStore.save_state (write e) (display_queue s1)
                                (total_in_cycle s1) (STATE_FILE s1)) |},
        Log INFO (DisplayStart p) :: t2 ++
          [SetImage img; ShowPanel; Log INFO (DisplayOk p)] ++
          snd (StateStore.save_state (write e) (display_queue s1)
                 (total_in_cycle s1) (STATE_FILE s1)) ++
          Controller.wait_trace cfg)) \/
  (exists img t2,
     Render.prepare_image (render e) p = (Some img, t2) /\
     sink e <> Displayed /\
     Controller.serve cfg e p s1 =
       (Controller.wait_flow cfg,
        {| display_queue := p :: display_queue s1;
           total_in_cycle := total_in_cycle s1;
           STATE_FILE := STATE_FILE s1 |},
        Log INFO (DisplayStart p) :: t2 ++
          Controller.sink_trace (sink e) img ++ [Log ERROR DisplayError] ++
          Controller.wait_trace cfg)).
Proof.
  destruct (Render.prepare_image (render e) p) as [[img|] t2] eqn:Hr.
  - assert (Hdec : sink e = Displayed \/ sink e <> Displayed)
      by (destruct (sink e); auto).
    destruct Hdec as [Hs|Hs].
    + right. left. exists img, t2. split; [done|]. split; [done|].
      by apply serve_displayed.
    + right. right. exists img, t2. split; [done|]. split; [done|].
      by apply serve_display_failed.
  - left. exists t2. split; [done|]. by apply serve_unrendered.
Qed.

End PassCases.

(** ** What the trace of a pass contains *)

Lemma quiet_silent t :
  Forall (fun ev => quiet ev = true) t ->
  Loop.shown t = [] /\ Loop.sleeps t = [] /\ Loop.dumps t = [].
Proof.
  induction 1 as [|ev t Hev _ (IH1 & IH2 & IH3)]; [done|].
  unfold Loop.shown, Loop.sleeps, Loop.dumps in *. cbn.
  rewrite IH1, IH2, IH3. by destruct ev.
Qed.

Lemma prepare_image_silent e p :
  Loop.shown (snd (Render.prepare_image e p)) = [] /\
  Loop.sleeps (snd (Render.prepare_image e p)) = [] /\
  Loop.dumps (snd (Render.prepare_image e p)) = [].
Proof. apply quiet_silent, prepare_image_quiet. Qed.

Lemma select_silent cfg e s p s1 t1 :
  Controller.select cfg e s = (Next p, s1, t1) ->
  Loop.shown t1 = [] /\ Loop.sleeps t1 = [] /\ Loop.dumps t1 = [].
Proof.
  intros H. by apply select_next in H as [_ [(_ & _ & ->)|(_ & -> & _)]].
Qed.

Lemma save_state_trace w q n f :
  Loop.shown (snd (StateStore.save_state w q n f)) = [] /\
  Loop.sleeps (snd (StateStore.save_state w q n f)) = [] /\
  Loop.dumps (snd (StateStore.save_state w q n f)) = [(q, n)].
Proof. by destruct w. Qed.

Lemma wait_then_backoff cfg :
  exists d,
    Loop.sleeps (Controller.wait_trace cfg ++ Controller.backoff (Controller.wait_flow cfg))
      = [d] /\
    last (Controller.wait_trace cfg ++ Controller.backoff (Controller.wait_flow cfg))
      = Some (Sleep d) /\
    Loop.shown (Controller.wait_trace cfg ++ Controller.backoff (Controller.wait_flow cfg))
      = [] /\
    Loop.dumps (Controller.wait_trace cfg ++ Controller.backoff (Controller.wait_flow cfg))
      = [] /\
    (d = 10%Z \/ d = INTERVAL_SECONDS cfg) /\ (0 <= d)%Z.
Proof.
  unfold Controller.wait_trace, Controller.wait_flow.
  destruct (Z.ltb_spec (INTERVAL_SECONDS cfg) 0).
  - exists 10%Z. cbn. repeat split; auto. lia.
  - exists (INTERVAL_SECONDS cfg). cbn. repeat split; auto.
Qed.


Section PassTraces.
Variable cfg : config.

Ltac norm_app :=
  repeat (rewrite <- app_assoc || rewrite <- app_comm_cons).

(** The trace of a pass that served a path, cut where the wait begins. *)
Lemma iteration_served e s p s1 t1 :
  Controller.select cfg e s = (Next p, s1, t1) ->
  exists s2 mid,
    Controller.serve cfg e p s1 =
      (Controller.wait_flow cfg, s2, mid ++ Controller.wait_trace cfg) /\
    Controller.iteration cfg e s =
      (s2, t1 ++ mid ++ Controller.wait_trace cfg
              ++ Controller.backoff (Controller.wait_flow cfg)) /\
    Loop.sleeps mid = [] /\
    ((Loop.shown mid = [] /\ Loop.dumps mid = [] /\ s2 = s1 /\
      fst (Render.prepare_image (render e) p) = None) \/
     (Loop.shown mid = [p] /\ sink e <> Displayed /\ Loop.dumps mid = [] /\
      decodes (render e) = true /\ overlays (render e) = true /\
      s2 = {| display_queue := p :: display_queue s1;
              total_in_cycle := total_in_cycle s1;
              STATE_FILE := STATE_FILE s1 |}) \/
     (Loop.shown mid = [p] /\ sink e = Displayed /\
      Loop.dumps mid = [(display_queue s2, total_in_cycle s2)] /\
      decodes (render e) = true /\ overlays (render e) = true /\
      s2 = {| display_queue := display_queue s1;
              total_in_cycle := total_in_cycle s1;
              STATE_FILE := fst (StateStore.save_state (write e) (display_queue s1)
                                   (total_in_cycle s1) (STATE_FILE s1)) |})).
Proof.
  intros Hsel.
  assert (Hsrc : forall img t2,
            Render.prepare_image (render e) p = (Some img, t2) ->
            img_source img = p /\ decodes (render e) = true /\
            overlays (render e) = true).
  { unfold Render.prepare_image. intros img t2.
    destruct (decodes (render e)); [|discriminate].
    destruct (Extractor.extract_capture_date p (exif (render e))) as [[v|] t0];
      [|discriminate].
    destruct (overlays (render e)); [|discriminate]. by intros [= <- _]. }
  destruct (serve_cases cfg e p s1)
    as [(t2 & Hr & Hserve)|[(img & t2 & Hr & Hs & Hserve)|(img & t2 & Hr & Hs & Hserve)]];
    pose proof (prepare_image_silent (render e) p) as (Hq1 & Hq2 & Hq3);
    rewrite Hr in Hq1, Hq2, Hq3; cbn [snd] in Hq1, Hq2, Hq3.
  - exists s1, (Log INFO (DisplayStart p) :: t2).
    split; [by rewrite Hserve|]. split.
    { rewrite (iteration_select_serve cfg e s p s1 t1 _ _ _ Hsel Hserve).
      by norm_app. }
    split; [by unfold Loop.sleeps in *; cbn|].
    left. unfold Loop.shown, Loop.dumps in *. cbn. rewrite Hr. auto 10.
  - destruct (Hsrc img t2 Hr) as (Hi & Hd & Ho).
    pose proof (save_state_trace (write e) (display_queue s1) (total_in_cycle s1)
                  (STATE_FILE s1)) as (Hv1 & Hv2 & Hv3).
    eexists _, (Log INFO (DisplayStart p) :: t2 ++
                  [SetImage img; ShowPanel; Log INFO (DisplayOk p)] ++
                  snd (StateStore.save_state (write e) (display_queue s1)
                         (total_in_cycle s1) (STATE_FILE s1))).
    split; [rewrite Hserve; by norm_app|]. split.
    { rewrite (iteration_select_serve cfg e s p s1 t1 _ _ _ Hsel Hserve).
      by norm_app. }
    unfold Loop.shown, Loop.sleeps, Loop.dumps in *. cbn.
    rewrite !omap_app, ?Hq1, ?Hq2, ?Hq3. cbn. rewrite ?Hv1, ?Hv2, ?Hv3, ?Hi.
    split; [done|]. right. right. by repeat split.
  - destruct (Hsrc img t2 Hr) as (Hi & Hd & Ho).
    eexists _, (Log INFO (DisplayStart p) :: t2 ++
                  Controller.sink_trace (sink e) img ++ [Log ERROR DisplayError]).
    split; [rewrite Hserve; by norm_app|]. split.
    { rewrite (iteration_select_serve cfg e s p s1 t1 _ _ _ Hsel Hserve).
      by norm_app. }
    unfold Loop.shown, Loop.sleeps, Loop.dumps in *. cbn.
    rewrite !omap_app, ?Hq1, ?Hq2, ?Hq3. cbn.
    split; [by destruct (sink e)|]. right. left.
    destruct (sink e); [done| |]; cbn; by rewrite Hi.
Qed.

End PassTraces.

Section PassGuarantees.
Variable cfg : config.

Lemma halted_trace e s r s1 t1 :
  Controller.select cfg e s = (r, s1, t1) ->
  (forall p, r <> Next p) ->
  Loop.shown (t1 ++ Controller.backoff r) = [] /\
  Loop.dumps (t1 ++ Controller.backoff r) = [] /\
  exists d, Loop.sleeps (t1 ++ Controller.backoff r) = [d] /\
            last (t1 ++ Controller.backoff r) = Some (Sleep d) /\
            (d = 60%Z \/ d = 10%Z).
Proof.
  intros Hsel Hr.
  destruct (select_halts cfg e s r s1 t1 Hsel Hr)
    as (_ & _ & _ & [(_ & -> & _ & ->)|(names & _ & _ &
         [(_ & -> & _ & ->)|[(_ & _ & -> & _ & ->)|(_ & _ & -> & _ & ->)]])]);
    (split; [done|]); (split; [done|]);
    first [by exists 60%Z; auto | by exists 10%Z; auto].
Qed.



(** X2. A pass calls [save_state] at most once, and only after [set_image] and
    [show] have returned for the selected path; what it passes is the queue
    and count the pass ends with. *)
Theorem state_saved_only_after_display (e : env) (s : state) :
  let s' := fst (Controller.iteration cfg e s) in
  let tr := snd (Controller.iteration cfg e s) in
  Loop.dumps tr = [] \/
  (Loop.dumps tr = [(display_queue s', total_in_cycle s')] /\
   Loop.succeeds e /\
   exists p s1 t1,
     Controller.select cfg e s = (Next p, s1, t1) /\ Loop.shown tr = [p]).
Proof.
  intros s' tr. subst s' tr.
  destruct (Controller.select cfg e s) as [[r s1] t1] eqn:Hsel.
  destruct r as [p| |].
  - destruct (iteration_served cfg e s p s1 t1 Hsel)
      as (s2 & mid & _ & -> & _ & Hcase).
    destruct (select_silent cfg e s p s1 t1 Hsel) as (Hs1 & _ & Hd1).
    destruct (wait_then_backoff cfg) as (d & _ & _ & Hw1 & Hw2 & _).
    cbn [fst snd]. unfold Loop.dumps, Loop.shown in *.
    rewrite !omap_app, Hd1, Hs1. rewrite <- !(omap_app _ (Controller.wait_trace cfg)).
    rewrite Hw1, Hw2, !app_nil_r. cbn [app].
    destruct Hcase as [(_ & Hd & _)|[(_ & _ & Hd & _)|(Hsh & Hsk & Hd & Hdec & Hov & _)]];
      [by left|by left|].
    right. split; [done|]. split; [done|]. by exists p, s1, t1.
  - left. rewrite (iteration_halts cfg e s _ s1 t1 Hsel) by done.
    by destruct (halted_trace e s _ s1 t1 Hsel) as (_ & ? & _).
  - left. rewrite (iteration_halts cfg e s _ s1 t1 Hsel) by done.
    by destruct (halted_trace e s _ s1 t1 Hsel) as (_ & ? & _).
Qed.

(** X3. A pass hands at most one image to the sink, and it is the image of
    the path Select took from the front of the queue. *)
Theorem at_most_one_image_per_pass (e : env) (s : state) :
  let tr := snd (Controller.iteration cfg e s) in
  Loop.shown tr = [] \/
  exists p s1 t1,
    Loop.shown tr = [p] /\
    Controller.select cfg e s = (Next p, s1, t1) /\
    decodes (render e) = true /\ overlays (render e) = true.
Proof.
  intros tr. subst tr.
  destruct (Controller.select cfg e s) as [[r s1] t1] eqn:Hsel.
  destruct r as [p| |].
  - destruct (iteration_served cfg e s p s1 t1 Hsel)
      as (s2 & mid & _ & -> & _ & Hcase).
    destruct (select_silent cfg e s p s1 t1 Hsel) as (Hs1 & _ & _).
    destruct (wait_then_backoff cfg) as (d & _ & _ & Hw1 & _ & _).
    cbn [snd]. unfold Loop.shown in *.
    rewrite !omap_app, Hs1. rewrite <- !(omap_app _ (Controller.wait_trace cfg)).
    rewrite Hw1, !app_nil_r. cbn [app].
    destruct Hcase as [(Hsh & _)|[(Hsh & _ & _ & Hdec & Hov & _)|(Hsh & _ & _ & Hdec & Hov & _)]];
      [by left|right; by exists p, s1, t1|right; by exists p, s1, t1].
  - left. rewrite (iteration_halts cfg e s _ s1 t1 Hsel) by done.
    by destruct (halted_trace e s _ s1 t1 Hsel) as (? & _).
  - left. rewrite (iteration_halts cfg e s _ s1 t1 Hsel) by done.
    by destruct (halted_trace e s _ s1 t1 Hsel) as (? & _).
Qed.

End PassGuarantees.


(** ** Empty collection, unreadable directory, and a queue in progress *)

(** X4. When the queue is empty and the directory holds no image, the pass
    shows and saves nothing, keeps the queue empty and the count as it was,
    and calls [os.remove] exactly when there is a state file. When there was
    no file or the removal goes through, the file is absent afterwards and
    the pass ends with a sleep of 60 seconds instead of the interval. When
    [os.remove] raises, the pass leaves the state, file included, as it was
    and ends in the handler, with a sleep of 10 seconds. *)
Theorem empty_collection_backs_off (cfg : config) (e : env) (s : state) (names : list string) :
  display_queue s = [] ->
  listdir e = Returns names ->
  Controller.image_paths (PHOTO_DIR cfg) names = [] ->
  let s' := fst (Controller.iteration cfg e s) in
  let tr := snd (Controller.iteration cfg e s) in
  display_queue s' = [] /\
  total_in_cycle s' = total_in_cycle s /\
  (In RemoveState tr <-> STATE_FILE s <> Absent) /\
  Loop.shown tr = [] /\ Loop.dumps tr = [] /\
  (STATE_FILE s = Absent \/ removes e = true ->
     STATE_FILE s' = Absent /\
     Loop.sleeps tr = [60%Z] /\ last tr = Some (Sleep 60)) /\
  (STATE_FILE s <> Absent -> removes e = false ->
     s' = s /\
     Loop.sleeps tr = [10%Z] /\ last tr = Some (Sleep 10) /\
     In (Log CRITICAL Unexpected) tr).
Proof.
  intros Hq Hl Hf s' tr. subst s' tr.
  destruct (Controller.select cfg e s) as [[r s1] t1] eqn:Hsel.
  assert (Hr : forall p, r <> Next p).
  { intros p ->. apply select_next in Hsel as [_ [(Hq' & _)|(_ & _ & names' & Hl' & Hsh & _)]].
    - by rewrite Hq in Hq'.
    - rewrite Hl in Hl'. injection Hl' as <-. rewrite Hf in Hsh. discriminate. }
  rewrite (iteration_halts cfg e s r s1 t1 Hsel Hr). cbn [fst snd].
  destruct (select_halts cfg e s r s1 t1 Hsel Hr)
    as (_ & Hq1 & Ht1 & [(Hl' & _)|(names' & _ & _ &
         [(Hfile & -> & -> & ->)|[(Hfile & Hrm & -> & Hfile1 & ->)
                                 |(Hfile & Hrm & -> & -> & ->)]])]).
  - by rewrite Hl in Hl'.
  - split; [done|]. split; [done|]. split.
    { split; [intros [H|[H|[H|[]]]]; discriminate|done]. }
    split; [done|]. split; [done|]. split; [done|]. by intros H.
  - split; [done|]. split; [done|]. split.
    { split; [done|]. intros _. cbn. auto. }
    split; [done|]. split; [done|]. split; [done|].
    intros _ Hrm'. by rewrite Hrm in Hrm'.
  - split; [done|]. split; [done|]. split.
    { split; [done|]. intros _. cbn. auto. }
    split; [done|]. split; [done|]. split.
    + intros [H|H]; [done|]. by rewrite Hrm in H.
    + intros _ _. split; [done|]. split; [done|]. split; [done|]. cbn. auto 10.
Qed.

Lemma empty_collection_backs_off_witness :
  let s' := fst (Controller.iteration Demo.cfg Sample.no_images Sample.drained) in
  let s2 := fst (Controller.iteration Demo.cfg Sample.locked Sample.drained) in
  display_queue Sample.drained = [] /\
  Controller.image_paths (PHOTO_DIR Demo.cfg) ["notes.txt"] = [] /\
  STATE_FILE s' = Absent /\ total_in_cycle s' = 3 /\
  s2 = Sample.drained.
Proof.
  intros s' s2.
  pose proof (empty_collection_backs_off Demo.cfg Sample.no_images Sample.drained
                ["notes.txt"] eq_refl eq_refl eq_refl) as H.
  pose proof (empty_collection_backs_off Demo.cfg Sample.locked Sample.drained
                ["notes.txt"] eq_refl eq_refl eq_refl) as H2.
  cbv zeta in H, H2.
  destruct H as (_ & Ht & _ & _ & _ & Hok & _).
  destruct H2 as (_ & _ & _ & _ & _ & _ & Hfail).
  split; [reflexivity|]. split; [reflexivity|].
  split; [exact (proj1 (Hok (or_intror eq_refl)))|]. split; [exact Ht|].
  apply Hfail; [discriminate|reflexivity].
Defined.

(** X5. When the queue is empty and the directory cannot be listed, the
    exception is caught at the loop boundary: the state, file included, is
    exactly what it was, nothing is shown, and the loop sleeps 10 seconds. *)
Theorem listing_failure_changes_nothing (cfg : config) (e : env) (s : state) :
  display_queue s = [] ->
  listdir e = Raises ->
  Controller.iteration cfg e s =
    (s, [Log INFO QueueEmpty; Log CRITICAL Unexpected; Sleep 10]).
Proof.
  intros Hq Hl.
  destruct (Controller.select cfg e s) as [[r s1] t1] eqn:Hsel.
  assert (Hr : forall p, r <> Next p).
  { intros p ->. apply select_next in Hsel as [_ [(Hq' & _)|(_ & _ & names' & Hl' & _)]].
    - by rewrite Hq in Hq'.
    - by rewrite Hl in Hl'. }
  rewrite (iteration_halts cfg e s r s1 t1 Hsel Hr).
  destruct (select_halts cfg e s r s1 t1 Hsel Hr)
    as (_ & _ & _ & [(_ & -> & -> & ->)|(names' & Hl' & _)]); [done|].
  by rewrite Hl in Hl'.
Qed.

Lemma listing_failure_changes_nothing_witness :
  display_queue Sample.drained = [] /\ listdir Sample.unlisted = Raises /\
  fst (Controller.iteration Demo.cfg Sample.unlisted Sample.drained) = Sample.drained.
Proof.
  split; [reflexivity|]. split; [reflexivity|].
  by rewrite (listing_failure_changes_nothing Demo.cfg Sample.unlisted Sample.drained
                eq_refl eq_refl).
Defined.

(** X6. While the queue is not empty a pass does not look at the directory:
    two environments that differ only in the listing, the random source or
    the removal outcome give the same pass. Files added or removed during a
    cycle change nothing until the queue runs out. *)
Theorem queue_in_progress_ignores_directory (cfg : config) (e e' : env) (s : state) :
  display_queue s <> [] ->
  render e = render e' -> sink e = sink e' -> write e = write e' ->
  Controller.iteration cfg e s = Controller.iteration cfg e' s.
Proof.
  intros Hq Hr Hs Hw.
  destruct (display_queue s) as [|p rest] eqn:Hqs; [done|].
  assert (Hsel : forall e0, Controller.select cfg e0 s =
            (Next p, {| display_queue := rest; total_in_cycle := total_in_cycle s;
                        STATE_FILE := STATE_FILE s |}, [])).
  { intros e0. unfold Controller.select. unfold mbind at 1. unfold M_bind.
    rewrite (refill_idle cfg e0 s p rest Hqs). unfold_M. by rewrite Hqs. }
  assert (Hserve : forall s1, Controller.serve cfg e p s1 = Controller.serve cfg e' p s1).
  { intros s1. unfold Controller.serve, Controller.prepare, Controller.display,
      Controller.hand_to_sink, Controller.save. by rewrite Hr, Hs, Hw. }
  set (s1 := {| display_queue := rest; total_in_cycle := total_in_cycle s;
                STATE_FILE := STATE_FILE s |}) in *.
  destruct (Controller.serve cfg e p s1) as [[r s2] t2] eqn:He.
  rewrite (iteration_select_serve cfg e s p s1 [] r s2 t2 (Hsel e) He).
  rewrite Hserve in He.
  by rewrite (iteration_select_serve cfg e' s p s1 [] r s2 t2 (Hsel e') He).
Qed.

Lemma queue_in_progress_ignores_directory_witness :
  display_queue Sample.full <> [] /\
  Controller.iteration Demo.cfg Demo.fine Sample.full
    = Controller.iteration Demo.cfg
        {| listdir := Raises; draws := []; render := Demo.rendering;
           sink := Displayed; write := Written; removes := false |} Sample.full.
Proof.
  assert (H : display_queue Sample.full <> []) by discriminate.
  split; [exact H|].
  by apply (queue_in_progress_ignores_directory _ _ _ _ H).
Defined.


(** ** A cycle: the queue is served in order, each path once *)

Lemma prepare_image_some e p :
  decodes e = true -> overlays e = true ->
  exists img t, Render.prepare_image e p = (Some img, t).
Proof.
  intros Hd Ho. unfold Render.prepare_image. rewrite Hd.
  destruct (extract_returns p (exif e)) as [v Hv].
  destruct (Extractor.extract_capture_date p (exif e)) as [r t].
  cbn in Hv. subst r. rewrite Ho. by repeat eexists.
Qed.

Lemma pass_succeeds cfg e s p s1 t1 :
  Controller.select cfg e s = (Next p, s1, t1) ->
  Loop.succeeds e ->
  fst (Controller.iteration cfg e s) =
    {| display_queue := display_queue s1;
       total_in_cycle := total_in_cycle s1;
       STATE_FILE := fst (StateStore.save_state (write e) (display_queue s1)
                            (total_in_cycle s1) (STATE_FILE s1)) |} /\
  Loop.shown (snd (Controller.iteration cfg e s)) = [p].
Proof.
  intros Hsel (Hd & Ho & Hs).
  destruct (iteration_served cfg e s p s1 t1 Hsel)
    as (s2 & mid & _ & -> & _ & Hcase).
  destruct (select_silent cfg e s p s1 t1 Hsel) as (Hs1 & _ & _).
  destruct (wait_then_backoff cfg) as (d & _ & _ & Hw1 & _ & _).
  cbn [fst snd]. unfold Loop.shown in *.
  rewrite !omap_app, Hs1. rewrite <- !(omap_app _ (Controller.wait_trace cfg)).
  rewrite Hw1, !app_nil_r. cbn [app].
  destruct Hcase as [(_ & _ & _ & Hnone)|[(_ & Hsk & _)|(Hsh & _ & _ & _ & _ & ->)]].
  - destruct (prepare_image_some (render e) p Hd Ho) as (img & t & Hsome).
    by rewrite Hsome in Hnone.
  - by destruct Hsk.
  - done.
Qed.

Lemma select_front cfg e s p rest :
  display_queue s = p :: rest ->
  Controller.select cfg e s =
    (Next p, {| display_queue := rest; total_in_cycle := total_in_cycle s;
                STATE_FILE := STATE_FILE s |}, []).
Proof.
  intros Hq. unfold Controller.select. unfold mbind at 1. unfold M_bind.
  rewrite (refill_idle cfg e s p rest Hq). unfold_M. by rewrite Hq.
Qed.

Lemma queue_served_run (cfg : config) (es : list env) (s : state) :
  Forall Loop.succeeds es ->
  List.length es <= List.length (display_queue s) ->
  let s' := fst (Loop.run cfg es s) in
  let tr := snd (Loop.run cfg es s) in
  Loop.shown tr = take (List.length es) (display_queue s) /\
  display_queue s' = drop (List.length es) (display_queue s) /\
  total_in_cycle s' = total_in_cycle s.
Proof.
  intros Hall. revert s. induction Hall as [|e es He Hall IH]; intros s Hlen.
  - cbn. by rewrite drop_0.
  - destruct (display_queue s) as [|p rest] eqn:Hq; [cbn in Hlen; lia|].
    cbn in Hlen. cbn [Loop.run].
    pose proof (pass_succeeds cfg e s p _ _ (select_front cfg e s p rest Hq) He)
      as [Hst Hsh].
    destruct (Controller.iteration cfg e s) as [s1 t1]. cbn [fst snd] in Hst, Hsh.
    assert (Hq1 : display_queue s1 = rest) by (by subst s1).
    assert (Ht1 : total_in_cycle s1 = total_in_cycle s) by (by subst s1).
    specialize (IH s1). rewrite Hq1, Ht1 in IH.
    destruct (Loop.run cfg es s1) as [s2 t2]. cbn [fst snd] in *.
    destruct IH as (IH1 & IH2 & IH3); [lia|].
    unfold Loop.shown in *. rewrite omap_app, Hsh, IH1. by cbn.
Qed.

(** X7. Passes in which render and display succeed serve the queue from the
    front, in order, one path per pass: after [k] such passes on a queue of
    at least [k] paths the first [k] have been shown, in queue order, the
    rest are still queued, and the count is unchanged. *)
Theorem queue_served_in_order (cfg : config) (es : list env) (s : state) :
  Forall Loop.succeeds es ->
  List.length es <= List.length (display_queue s) ->
  let s' := fst (Loop.run cfg es s) in
  let tr := snd (Loop.run cfg es s) in
  Loop.shown tr = take (List.length es) (display_queue s) /\
  display_queue s' = drop (List.length es) (display_queue s) /\
  total_in_cycle s' = total_in_cycle s.
Proof. apply queue_served_run. Qed.

Lemma queue_served_in_order_witness :
  Forall Loop.succeeds [Demo.fine; Demo.fine] /\
  Loop.shown (snd (Loop.run Demo.cfg [Demo.fine; Demo.fine] Sample.full))
    = ["/home/pi/images/c.png"; "/home/pi/images/a.jpg"] /\
  display_queue (fst (Loop.run Demo.cfg [Demo.fine; Demo.fine] Sample.full))
    = ["/home/pi/images/b.jpg"].
Proof.
  assert (H : Forall Loop.succeeds [Demo.fine; Demo.fine])
    by (repeat constructor).
  split; [exact H|].
  destruct (queue_served_in_order Demo.cfg [Demo.fine; Demo.fine] Sample.full H)
    as (H1 & H2 & _); [cbn; lia|].
  split; [exact H1|exact H2].
Defined.

(** X8. A full cycle shows every path of the collection exactly once: from an
    empty queue, as many succeeding passes as the directory has images show
    the shuffled collection in order, a permutation of it with no path
    repeated when the listing has none, and leave the queue empty with the
    count at the collection size. *)
Theorem full_cycle_shows_each_path_once (cfg : config) (e : env)
    (es : list env) (s : state) (names : list string) :
  display_queue s = [] ->
  listdir e = Returns names ->
  List.length (Controller.image_paths (PHOTO_DIR cfg) names) = S (List.length es) ->
  Forall Loop.succeeds (e :: es) ->
  let files := Controller.image_paths (PHOTO_DIR cfg) names in
  let s' := fst (Loop.run cfg (e :: es) s) in
  let tr := snd (Loop.run cfg (e :: es) s) in
  Loop.shown tr = Shuffle.shuffle (draws e) files /\
  Loop.shown tr ≡ₚ files /\
  (NoDup files -> NoDup (Loop.shown tr)) /\
  display_queue s' = [] /\
  total_in_cycle s' = List.length files.
Proof.
  intros Hq Hl Hlen Hall files s' tr.
  assert (Hshown : Loop.shown tr = Shuffle.shuffle (draws e) files /\
                   display_queue s' = [] /\ total_in_cycle s' = List.length files).
  { subst s' tr. apply Forall_cons in Hall as [He Hall].
    destruct files as [|f fs] eqn:Hf; [subst files; rewrite Hf in Hlen; discriminate|].
    assert (Hfiles : Controller.image_paths (PHOTO_DIR cfg) names = f :: fs)
      by (by subst files).
    pose proof (refill_fresh cfg e s names f fs Hq Hl Hfiles) as Hre.
    pose proof (shuffle_length (draws e) (f :: fs)) as Hsl.
    destruct (Shuffle.shuffle (draws e) (f :: fs)) as [|p rest] eqn:Hsh;
      [discriminate|].
    assert (Hsel : Controller.select cfg e s =
              (Next p, {| display_queue := rest;
                          total_in_cycle := List.length (p :: rest);
                          STATE_FILE := STATE_FILE s |}, [Log INFO QueueEmpty])).
    { unfold Controller.select. unfold mbind at 1. unfold M_bind. rewrite Hre.
      by unfold_M. }
    cbn [Loop.run].
    pose proof (pass_succeeds cfg e s p _ _ Hsel He) as [Hst Hs1].
    destruct (Controller.iteration cfg e s) as [s1 t1]. cbn [fst snd] in Hst, Hs1.
    assert (Hq1 : display_queue s1 = rest) by (by subst s1).
    assert (Ht1 : total_in_cycle s1 = List.length (p :: rest)) by (by subst s1).
    assert (Hes : List.length es = List.length rest).
    { rewrite Hfiles in Hlen. cbn in Hlen, Hsl. lia. }
    pose proof (queue_served_run cfg es s1 Hall) as Hrun.
    rewrite Hq1, Ht1 in Hrun.
    destruct (Loop.run cfg es s1) as [s2 t2]. cbn [fst snd] in *.
    destruct Hrun as (H1 & H2 & H3); [lia|].
    unfold Loop.shown in *. rewrite omap_app, Hs1, H1, H2, H3, Hes.
    rewrite take_ge, drop_ge by lia. cbn in Hsl |- *. by rewrite Hsl. }
  destruct Hshown as (Hs1 & Hs2 & Hs3).
  split; [done|]. rewrite Hs1.
  split; [apply shuffle_perm|]. split; [|done].
  intros Hnd. by rewrite shuffle_perm.
Qed.

Lemma full_cycle_shows_each_path_once_witness :
  let es := [Demo.fine; Demo.fine; Demo.fine] in
  display_queue Demo.fresh = [] /\
  Forall Loop.succeeds es /\
  Loop.shown (snd (Loop.run Demo.cfg es Demo.fresh))
    ≡ₚ ["/home/pi/images/a.jpg"; "/home/pi/images/b.jpg"; "/home/pi/images/c.png"] /\
  display_queue (fst (Loop.run Demo.cfg es Demo.fresh)) = [].
Proof.
  intros es.
  assert (H : Forall Loop.succeeds es) by (repeat constructor).
  split; [reflexivity|]. split; [exact H|].
  destruct (full_cycle_shows_each_path_once Demo.cfg Demo.fine
              [Demo.fine; Demo.fine] Demo.fresh Demo.names
              eq_refl eq_refl eq_refl H) as (_ & Hp & _ & Hq & _).
  split; [exact Hp|exact Hq].
Defined.

(** ** Restarts *)

Lemma int_ne_same n : Py.int_ne (Z.of_nat n) (JInt (Z.of_nat n)) = false.
Proof. cbn. by rewrite Z.eqb_refl. Qed.

Lemma startup_in_sync cfg names q n :
  List.length (Controller.image_paths (PHOTO_DIR cfg) names) = n ->
  Startup.startup cfg (Loop.restart names) (Doc (StateStore.record q n)) =
    (Runs {| display_queue := q; total_in_cycle := n;
             STATE_FILE := Doc (StateStore.record q n) |},
     [Log INFO StateLoaded]).
Proof.
  intros Hn. unfold Startup.startup. cbn -[Controller.image_paths].
  rewrite Hn, Z.eqb_refl. cbn. by rewrite as_paths_of_paths.
Qed.

(** X9. Stopping after a successful display whose write went through loses
    nothing: a restart that finds as many images as the saved count starts
    the loop in exactly the state the pass ended in, queue order included. *)
Theorem restart_resumes_where_it_stopped (cfg : config) (e : env) (s : state)
    (p : string) (s1 : state) (t1 : list event) (names : list string) :
  Controller.select cfg e s = (Next p, s1, t1) ->
  Loop.succeeds e ->
  write e = Written ->
  List.length (Controller.image_paths (PHOTO_DIR cfg) names) = total_in_cycle s1 ->
  let s' := fst (Controller.iteration cfg e s) in
  Loop.in_sync s' /\
  Startup.startup cfg (Loop.restart names) (STATE_FILE s')
    = (Runs s', [Log INFO StateLoaded]).
Proof.
  intros Hsel He Hw Hn s'. subst s'.
  destruct (pass_succeeds cfg e s p s1 t1 Hsel He) as [-> _].
  rewrite Hw. cbn [StateStore.save_state fst STATE_FILE].
  split; [reflexivity|]. by apply startup_in_sync.
Qed.

Lemma restart_resumes_where_it_stopped_witness :
  let s' := fst (Controller.iteration Demo.cfg Demo.fine Sample.full) in
  Loop.succeeds Demo.fine /\ write Demo.fine = Written /\
  display_queue s' = ["/home/pi/images/a.jpg"; "/home/pi/images/b.jpg"] /\
  Startup.startup Demo.cfg (Loop.restart Demo.names) (STATE_FILE s')
    = (Runs s', [Log INFO StateLoaded]).
Proof.
  intros s'.
  assert (H : Loop.succeeds Demo.fine) by (repeat constructor).
  split; [exact H|]. split; [reflexivity|]. split; [reflexivity|].
  apply (restart_resumes_where_it_stopped Demo.cfg Demo.fine Sample.full
           "/home/pi/images/c.png" _ _ Demo.names eq_refl H eq_refl eq_refl).
Defined.

(** X10. A path dropped because its render failed is not dropped for good:
    the pass saves nothing, so the state file still holds the queue with that
    path at the front, and a restart that finds as many images as the saved
    count starts the loop in the state the failed pass began with. *)
Theorem restart_replays_unrendered_path (cfg : config) (e : env) (s : state)
    (p : string) (rest : list string) (names : list string) :
  Loop.in_sync s ->
  display_queue s = p :: rest ->
  fst (Render.prepare_image (render e) p) = None ->
  List.length (Controller.image_paths (PHOTO_DIR cfg) names) = total_in_cycle s ->
  let s' := fst (Controller.iteration cfg e s) in
  display_queue s' = rest /\
  ~ Loop.in_sync s' /\
  Startup.startup cfg (Loop.restart names) (STATE_FILE s')
    = (Runs s, [Log INFO StateLoaded]).
Proof.
  intros Hsync Hq Hnone Hn s'. subst s'.
  destruct (Render.prepare_image (render e) p) as [r t2] eqn:Hr.
  cbn in Hnone. subst r.
  rewrite (iteration_select_serve cfg e s p _ _ _ _ _ (select_front cfg e s p rest Hq)
             (serve_unrendered cfg e p _ t2 Hr)).
  cbn [fst display_queue STATE_FILE]. split; [done|].
  unfold Loop.in_sync in *. cbn [display_queue total_in_cycle STATE_FILE].
  rewrite Hsync, Hq. split.
  - intros [= H]. apply (f_equal (@List.length _)) in H. cbn in H. lia.
  - rewrite (startup_in_sync cfg names (p :: rest) (total_in_cycle s) Hn).
    destruct s as [q n f]. cbn in *. by subst.
Qed.

Lemma restart_replays_unrendered_path_witness :
  let s' := fst (Controller.iteration Demo.cfg Demo.broken_file Sample.full) in
  Loop.in_sync Sample.full /\
  fst (Render.prepare_image (render Demo.broken_file) "/home/pi/images/c.png") = None /\
  display_queue s' = ["/home/pi/images/a.jpg"; "/home/pi/images/b.jpg"] /\
  Startup.startup Demo.cfg (Loop.restart Demo.names) (STATE_FILE s')
    = (Runs Sample.full, [Log INFO StateLoaded]).
Proof.
  intros s'.
  destruct (restart_replays_unrendered_path Demo.cfg Demo.broken_file Sample.full
              "/home/pi/images/c.png" _ Demo.names eq_refl eq_refl eq_refl eq_refl)
    as (Hq & _ & Hs).
  split; [reflexivity|]. split; [reflexivity|]. split; [exact Hq|exact Hs].
Defined.

Lemma saved_inv_default : saved_inv StateStore.default.
Proof. intros c items [= <-] [= <-]. cbn. lia. Qed.

Lemma saved_inv_absent : saved_inv (fst (StateStore.load_state Absent)).
Proof. apply saved_inv_default. Qed.

Lemma saved_inv_unparsable : saved_inv (fst (StateStore.load_state Unparsable)).
Proof. apply saved_inv_default. Qed.

(** A pass keeps the state file loadable as a pair that satisfies the
    invariant. *)
Lemma iteration_keeps_file_sound cfg e s :
  cycle_inv s ->
  saved_inv (fst (StateStore.load_state (STATE_FILE s))) ->
  saved_inv (fst (StateStore.load_state (STATE_FILE (fst (Controller.iteration cfg e s))))).
Proof.
  intros Hinv Hfile.
  destruct (Controller.select cfg e s) as [[r s1] t1] eqn:Hsel.
  assert (Hhalt : (forall p, r <> Next p) ->
            saved_inv (fst (StateStore.load_state
                              (STATE_FILE (fst (Controller.iteration cfg e s)))))).
  { intros Hr. rewrite (iteration_halts cfg e s r s1 t1 Hsel Hr). cbn [fst].
    destruct (select_halts cfg e s r s1 t1 Hsel Hr)
      as (_ & _ & _ & [(_ & _ & -> & _)|(names & _ & _ &
           [(_ & _ & -> & _)|[(_ & _ & _ & -> & _)|(_ & _ & _ & -> & _)]])]);
      first [done | apply saved_inv_absent]. }
  destruct r as [p| |]; [|by apply Hhalt|by apply Hhalt].
  pose proof (select_room cfg e s p s1 t1 Hsel Hinv) as Hroom.
  destruct (iteration_served cfg e s p s1 t1 Hsel)
    as (s2 & mid & _ & -> & _ & Hcase).
  apply select_next in Hsel as [Hf _]. cbn [fst].
  destruct Hcase as [(_ & _ & -> & _)|[(_ & _ & _ & _ & _ & ->)|(_ & _ & _ & _ & _ & ->)]];
    cbn [STATE_FILE]; rewrite ?Hf; try done.
  destruct (write e); cbn [StateStore.save_state fst].
  - apply saved_inv_record. lia.
  - done.
  - apply saved_inv_unparsable.
Qed.

(** X11. The invariant survives restarts: if the loop starts in a state that
    satisfies [len(queue) <= total_count] with a state file that loads as
    such a pair, then after any number of passes, whatever happens in them,
    a restart from the state file as it then is starts the loop in a state
    that satisfies the invariant, as does every state visited from there. *)
Theorem invariant_survives_restart (cfg : config) (s0 s : state)
    (b : boot_env) (s1 : state) (t : list event) (s2 : state) :
  cycle_inv s0 ->
  saved_inv (fst (StateStore.load_state (STATE_FILE s0))) ->
  reachable_from cfg s0 s ->
  Startup.startup cfg b (STATE_FILE s) = (Runs s1, t) ->
  visited cfg s1 s2 ->
  cycle_inv s2.
Proof.
  intros Hinv Hfile Hreach.
  assert (Hboth : cycle_inv s /\
                  saved_inv (fst (StateStore.load_state (STATE_FILE s)))).
  { induction Hreach as [|e s Hreach [IH1 IH2]]; [by split|]. split.
    - rewrite iteration_state. by apply body_inv.
    - by apply iteration_keeps_file_sound. }
  intros Hboot Hvis.
  apply (visited_inv cfg s1 s2); [|done].
  apply (startup_inv cfg b (STATE_FILE s) s1 t Hboot). left. apply Hboth.
Qed.

Lemma invariant_survives_restart_witness :
  let s := fst (Controller.iteration Demo.cfg Demo.fine Sample.full) in
  cycle_inv Sample.full /\
  saved_inv (fst (StateStore.load_state (STATE_FILE Sample.full))) /\
  cycle_inv (fst (Controller.iteration Demo.cfg Demo.panel_down s)).
Proof.
  intros s.
  assert (H1 : cycle_inv Sample.full) by (unfold cycle_inv; cbn; lia).
  assert (H2 : saved_inv (fst (StateStore.load_state (STATE_FILE Sample.full))))
    by (apply saved_inv_record; cbn; lia).
  split; [exact H1|]. split; [exact H2|].
  apply (invariant_survives_restart Demo.cfg Sample.full s
           (Loop.restart Demo.names) s [Log INFO StateLoaded]
           (fst (Controller.iteration Demo.cfg Demo.panel_down s)) H1 H2).
  - apply reach_pass, reach_start.
  - reflexivity.
  - left. apply reach_pass, reach_start.
Defined.

(** ** Rendering without a capture date *)

(** X12. A file whose capture date cannot be recovered is still rendered: for
    a [.png] name (no metadata read at all), a failing metadata read, a
    missing date field or an unparsable date, [prepare_image] returns an image
    of that file whose two label lines both read ["Unknown date"], provided
    decoding and drawing go through. *)
Theorem missing_capture_date_still_renders (e : render_env) (p : string) :
  decodes e = true ->
  overlays e = true ->
  Str.lower (snd (Extractor.splitext p)) = ".png" \/
    exif e = LoadRaises \/ exif e = NoDate \/ exif e = BadDate ->
  exists t,
    Render.prepare_image e p =
      (Some {| img_source := p; img_labels := ("Unknown date", "Unknown date") |}, t) /\
    (Str.lower (snd (Extractor.splitext p)) = ".png" -> ~ In (ReadExif p) t).
Proof.
  intros Hd Ho Hcase. unfold Render.prepare_image, Extractor.extract_capture_date.
  rewrite Hd, Ho.
  destruct (String.eqb_spec (Str.lower (snd (Extractor.splitext p))) ".png")
    as [Hpng|Hpng].
  - eexists. split; [reflexivity|]. intros _ [H|H]; [discriminate|].
    cbn in H. done.
  - destruct Hcase as [?|[Hx|[Hx|Hx]]]; [done| | |]; rewrite Hx; cbn;
      eexists; (split; [reflexivity|done]).
Qed.

Lemma missing_capture_date_still_renders_witness :
  exists t,
    Render.prepare_image
      {| now := Demo.at_midnight 2024 2 20; decodes := true;
         exif := BadDate; overlays := true |} "/home/pi/images/a.jpg"
    = (Some {| img_source := "/home/pi/images/a.jpg";
               img_labels := ("Unknown date", "Unknown date") |}, t).
Proof.
  destruct (missing_capture_date_still_renders
              {| now := Demo.at_midnight 2024 2 20; decodes := true;
                 exif := BadDate; overlays := true |} "/home/pi/images/a.jpg"
              eq_refl eq_refl) as (t & Ht & _); [auto|].
  by exists t.
Defined.

Open Scope Z_scope.

(** X13. The elapsed phrase never counts zero or too many units: from 30 to
    364 whole days it is ["N month(s) ago"] with [N] between 1 and 12, from
    365 days on it is ["N year(s) ago"] with [N] at least 1, and below 30
    days, a capture date after "now" included, it is ["Within a month"]. *)
Theorem elapsed_phrase_ranges (now capture : datetime) :
  let days := Datetime.delta_days now capture in
  let phrase := snd (Labels.format_date_and_elapsed_time now (Some capture)) in
  (days < 30 -> phrase = "Within a month") /\
  (30 <= days < 365 ->
   1 <= days / 30 <= 12 /\ phrase = Labels.ago (days / 30) "month") /\
  (365 <= days -> 1 <= days / 365 /\ phrase = Labels.ago (days / 365) "year").
Proof.
  intros days phrase. subst phrase.
  unfold Labels.format_date_and_elapsed_time. cbn [snd]. fold days.
  split; [|split].
  - intros H.
    assert (days / 365 <= 0) by (apply Z.lt_succ_r, Z.div_lt_upper_bound; lia).
    assert (days / 30 <= 0) by (apply Z.lt_succ_r, Z.div_lt_upper_bound; lia).
    destruct (Z.ltb_spec 0 (days / 365)); [lia|].
    by destruct (Z.ltb_spec 0 (days / 30)); [lia|].
  - intros [H1 H2].
    assert (days / 365 <= 0) by (apply Z.lt_succ_r, Z.div_lt_upper_bound; lia).
    assert (1 <= days / 30) by (apply Z.div_le_lower_bound; lia).
    assert (days / 30 <= 12) by (apply Z.lt_succ_r, Z.div_lt_upper_bound; lia).
    destruct (Z.ltb_spec 0 (days / 365)); [lia|].
    destruct (Z.ltb_spec 0 (days / 30)); [|lia].
    split; [lia|apply ago_month].
  - intros H.
    assert (1 <= days / 365) by (apply Z.div_le_lower_bound; lia).
    destruct (Z.ltb_spec 0 (days / 365)); [|lia].
    split; [lia|apply ago_year].
Qed.

Lemma elapsed_phrase_ranges_witness :
  Datetime.delta_days (Demo.at_midnight 2024 2 20) (Demo.at_midnight 2023 2 25) = 360 /\
  snd (Labels.format_date_and_elapsed_time (Demo.at_midnight 2024 2 20)
         (Some (Demo.at_midnight 2023 2 25))) = "12 months ago".
Proof.
  split; [reflexivity|].
  destruct (elapsed_phrase_ranges (Demo.at_midnight 2024 2 20)
              (Demo.at_midnight 2023 2 25)) as (_ & H & _).
  destruct H as [_ H]; [by vm_compute|]. exact H.
Defined.

(** ** Where the label and the crop go *)



(** X15. The centre crop always has the target size and is centred to the
    pixel: the margins cut on the two sides differ by at most one, the odd
    pixel going to the right or bottom. It stays inside the resized image
    exactly when that image is at least as large as the target; a resized
    image one pixel short makes the box start at -1. *)
Theorem center_crop_is_centred (new_width new_height target_width target_height : Z) :
  exists left top right bottom,
    Overlay.center_crop new_width new_height target_width target_height
      = (left, top, right, bottom) /\
    right - left = target_width /\ bottom - top = target_height /\
    0 <= (new_width - right) - left <= 1 /\
    0 <= (new_height - bottom) - top <= 1 /\
    (0 <= left /\ right <= new_width <-> target_width <= new_width) /\
    (0 <= top /\ bottom <= new_height <-> target_height <= new_height) /\
    (new_width = target_width - 1 -> left = -1 /\ right = new_width).
Proof.
  unfold Overlay.center_crop. do 4 eexists. split; [reflexivity|].
  pose proof (Z.div_mod (new_width - target_width) 2 ltac:(lia)) as Hw.
  pose proof (Z.mod_pos_bound (new_width - target_width) 2 ltac:(lia)) as Hwb.
  pose proof (Z.div_mod (new_height - target_height) 2 ltac:(lia)) as Hh.
  pose proof (Z.mod_pos_bound (new_height - target_height) 2 ltac:(lia)) as Hhb.
  repeat split; lia.
Qed.

Close Scope Z_scope.

(** * Further properties of the preprocessor *)

(** ** Names and their suffixes *)

Lemma take_append (a b : string) : Str.take (String.length a) (a +:+ b) = a.
Proof. induction a as [|c a IH]; simpl; [by destruct b|]. by f_equal. Qed.



Lemma parent_snoc (d : path) (n : string) : Preprocess.parent (d ++ [n]) = d.
Proof. apply removelast_last. Qed.

(** A name made of a non-empty stem and one of the dotted extensions has that
    extension as its suffix. *)
Lemma suffix_stem (d : path) (stem suf : string) :
  0 < String.length stem ->
  Str.rfind "." suf = Some 0 ->
  2 <= String.length suf ->
  Preprocess.suffix (d ++ [stem +:+ suf]) = suf.
Proof.
  intros Hstem Hdot Hlen. rewrite suffix_last.
  unfold Preprocess.suffix. cbn [Preprocess.name List.last].
  rewrite (rfind_append "." stem suf 0 Hdot), Nat.add_0_r, length_append.
  destruct (Nat.ltb_spec 0 (String.length stem)); [|lia].
  destruct (Nat.ltb_spec (String.length stem)
              (String.length stem + String.length suf - 1)); [|lia].
  apply drop_append.
Qed.

Lemma valid_ext_shape (suf : string) :
  suf ∈ Preprocess.VALID_EXTS ->
  Str.rfind "." suf = Some 0 /\ 2 <= String.length suf /\ suf <> "".
Proof.
  unfold Preprocess.VALID_EXTS. rewrite !elem_of_cons, elem_of_nil.
  intros [->|[->|[->|[->|[->|[->|[]]]]]]]; cbn; repeat split; (lia || done).
Qed.


(** ** Reruns over names that are already normalized *)



Lemma walk_mono e found input_dir output_dir overwrite fs :
  fs ⊆ fst (Preprocess.walk_and_process e found input_dir output_dir overwrite fs).
Proof.
  unfold Preprocess.walk_and_process.
  destruct (filter _ found); [done|]. apply process_all_mono.
Qed.




(** ** Sources that share an output name *)

Lemma with_suffix_stem (d : path) (stem s suf : string) :
  0 < String.length stem ->
  s ∈ Preprocess.VALID_EXTS ->
  suf = ".jpg" \/ suf = ".png" ->
  Preprocess.with_suffix (d ++ [stem +:+ s]) suf = Some (d ++ [stem +:+ suf]).
Proof.
  intros Hstem Hs Hsuf.
  destruct (valid_ext_shape s Hs) as (Hdot & Hlen & Hne).
  unfold Preprocess.with_suffix.
  assert (Hok : (match Str.rfind "/" suf with Some _ => true | None => false end)
                = false /\
                (negb (String.eqb suf "") && negb (String.prefix "." suf)
                 || String.eqb suf ".") = false)
    by (by destruct Hsuf as [-> | ->]).
  destruct Hok as [-> ->].
  rewrite (suffix_stem d stem s Hstem Hdot Hlen), parent_snoc.
  unfold Preprocess.name. rewrite List.last_last.
  destruct (String.eqb_spec (stem +:+ s) "") as [Heq|_].
  { apply (f_equal String.length) in Heq. rewrite length_append in Heq.
    cbn in Heq. lia. }
  destruct (String.eqb_spec s ""); [done|].
  rewrite length_append.
  replace (String.length stem + String.length s - String.length s)
    with (String.length stem) by lia.
  by rewrite take_append.
Qed.

(** X17. The output name depends on the stem only, not on which of the JPEG
    spellings the source has: [x.jpg], [x.jpeg], [x.JPG] and [x.JPEG] in one
    directory are all written to [x.jpg] (and [x.png], [x.PNG] to [x.png]).
    So once one of the other spellings has been converted, a sibling [x.jpg]
    is skipped although its own content was never converted. *)
Theorem same_stem_same_output (e e2 : img_env) (src_dir dst_dir : path)
    (stem s : string) (overwrite : bool) (fs fs1 : gset path) :
  stem <> "" ->
  s ∈ Preprocess.VALID_EXTS ->
  let ext := if bool_decide (s ∈ [".png"; ".PNG"]) then ".png" else ".jpg" in
  Preprocess.target (src_dir ++ [stem +:+ s]) (dst_dir ++ [stem +:+ s])
    = Some (dst_dir ++ [stem +:+ ext]) /\
  (Preprocess.process_one_image e (src_dir ++ [stem +:+ s])
     (dst_dir ++ [stem +:+ s]) overwrite fs = (fs1, Converted) ->
   Preprocess.process_one_image e2 (src_dir ++ [stem +:+ ext])
     (dst_dir ++ [stem +:+ ext]) false fs1 = (fs1, Skipped)).
Proof.
  intros Hstem Hs ext.
  assert (Hlen : 0 < String.length stem) by (destruct stem; [done|cbn; lia]).
  destruct (valid_ext_shape s Hs) as (Hdot & Hl & _).
  assert (Htarget : Preprocess.target (src_dir ++ [stem +:+ s]) (dst_dir ++ [stem +:+ s])
                    = Some (dst_dir ++ [stem +:+ ext])).
  { rewrite target_with_suffix. unfold Preprocess.normalized_ext.
    rewrite (suffix_stem src_dir stem s Hlen Hdot Hl).
    assert (Hext : (if bool_decide (Str.lower s ∈ [".png"]) then ".png" else ".jpg")
                   = ext).
    { subst ext. revert Hs. unfold Preprocess.VALID_EXTS.
      rewrite !elem_of_cons, elem_of_nil.
      intros [->|[->|[->|[->|[->|[->|[]]]]]]]; by vm_compute. }
    rewrite Hext. apply with_suffix_stem; [done|done|].
    subst ext. case_bool_decide; auto. }
  split; [done|].
  intros Hconv. apply process_one_image_converted in Hconv as (t & Ht & Hin).
  rewrite Htarget in Ht. injection Ht as <-.
  unfold Preprocess.process_one_image. by rewrite bool_decide_eq_true_2.
Qed.

Lemma same_stem_same_output_witness :
  Preprocess.target ["in"; "a.JPEG"] ["out"; "a.JPEG"] = Some ["out"; "a.jpg"] /\
  Preprocess.target ["in"; "a.jpg"] ["out"; "a.jpg"] = Some ["out"; "a.jpg"].
Proof.
  split.
  - apply (same_stem_same_output Demo.converting Demo.converting ["in"] ["out"]
             "a" ".JPEG" false ∅ ∅); [done|].
    unfold Preprocess.VALID_EXTS. rewrite !elem_of_cons. auto 10.
  - apply (same_stem_same_output Demo.converting Demo.converting ["in"] ["out"]
             "a" ".jpg" false ∅ ∅); [done|].
    unfold Preprocess.VALID_EXTS. rewrite !elem_of_cons. auto 10.
Defined.

(** ** What a run reports and where it writes *)



Lemma with_suffix_parent (p : path) (suf : string) (t : path) :
  Preprocess.with_suffix p suf = Some t ->
  exists n, t = Preprocess.parent p ++ [n].
Proof.
  unfold Preprocess.with_suffix.
  destruct (match Str.rfind "/" suf with Some _ => true | None => false end);
    [discriminate|].
  destruct (_ || _); [discriminate|].
  destruct (String.eqb _ ""); [discriminate|].
  intros [= <-]. by eexists.
Qed.

Lemma process_one_image_confined e input_dir output_dir rel overwrite fs p :
  rel <> [] ->
  p ∈ fst (Preprocess.process_one_image e (input_dir ++ rel) (output_dir ++ rel)
             overwrite fs) ->
  p ∈ fs \/ output_dir `prefix_of` p \/ p `prefix_of` output_dir.
Proof.
  intros Hrel. unfold Preprocess.process_one_image.
  assert (Hparent : Preprocess.parent (output_dir ++ rel) = output_dir ++ removelast rel)
    by (unfold Preprocess.parent; by rewrite removelast_app).
  assert (Hanc : p ∈ Preprocess.ancestors (Preprocess.parent (output_dir ++ rel)) ->
                 output_dir `prefix_of` p \/ p `prefix_of` output_dir).
  { intros [_ Hpre]%ancestors_prefix. rewrite Hparent in Hpre.
    destruct (prefix_weak_total p output_dir (output_dir ++ removelast rel) Hpre)
      as [?|?]; auto. by exists (removelast rel). }
  destruct (negb overwrite && bool_decide _); [auto|].
  destruct (decoded e _); [|auto].
  destruct (mkdirs e _); [|auto].
  destruct (Preprocess.target _ _) as [t|] eqn:Ht.
  - rewrite target_with_suffix in Ht.
    apply with_suffix_parent in Ht as [n ->]. rewrite Hparent in *.
    assert (Hnew : output_dir `prefix_of` (output_dir ++ removelast rel) ++ [n])
      by (exists (removelast rel ++ [n]); by rewrite app_assoc).
    destruct (saves e _); cbn;
      rewrite ?elem_of_union, ?elem_of_list_to_set, ?elem_of_singleton;
      intuition (subst; auto).
  - cbn. rewrite elem_of_union, elem_of_list_to_set. intros [?|?]; auto.
Qed.

Lemma process_all_confined e input_dir output_dir overwrite rels fs p :
  Forall (fun rel => rel <> []) rels ->
  p ∈ fst (Preprocess.process_all e input_dir output_dir overwrite rels fs) ->
  p ∈ fs \/ output_dir `prefix_of` p \/ p `prefix_of` output_dir.
Proof.
  intros Hall. revert fs. induction Hall as [|rel0 rest Hne Hall IH]; intros fs; cbn.
  - auto.
  - pose proof (process_one_image_confined e input_dir output_dir rel0 overwrite
                  fs p Hne) as H1.
    destruct (Preprocess.process_one_image _ _ _ _ fs) as [fs1 o0].
    specialize (IH fs1).
    destruct (Preprocess.process_all _ _ _ _ rest fs1) as [fs2 os].
    cbn in *. intros Hin. destruct (IH Hin) as [Hin1|?]; auto.
Qed.

(** X19. A run deletes nothing and creates nothing outside the branch of the
    output directory: every path that exists afterwards existed before, lies
    under the output directory, or is the output directory or one of its
    ancestors (made by [mkdir(parents=True)]). *)
Theorem walk_writes_only_under_output (e : img_env) (found : list path)
    (input_dir output_dir : path) (overwrite : bool) (fs : gset path) :
  let fs' :=
    fst (Preprocess.walk_and_process e found input_dir output_dir overwrite fs) in
  fs ⊆ fs' /\
  forall p, p ∈ fs' ->
    p ∈ fs \/ output_dir `prefix_of` p \/ p `prefix_of` output_dir.
Proof.
  intros fs'. split; [apply walk_mono|]. subst fs'.
  unfold Preprocess.walk_and_process.
  destruct (filter _ found) as [|f l] eqn:Hf; [auto|].
  intros p. apply process_all_confined.
  rewrite sorted_perm, <- Hf. apply Forall_forall. intros rel Hin.
  apply list_elem_of_filter in Hin as [Hv _]. by apply valid_ext_nonempty.
Qed.
